(** * SLA watchdog of civic-sentinel: a shallow embedding

    The development follows the module that declares [SLAWatchdogService]
    and the [tick] and [addEscalationExplanations] methods in it.  Dates
    are milliseconds since the epoch
    ([Date.getTime()]), the Firestore collection [complaints] is a finite
    map from document ids to documents, and every awaited call is a step of
    a state-and-exception monad over the collection, the re-entrancy flag
    and the log of the calls made so far. *)

From stdpp Require Import base gmap strings list sorting pretty.
From Stdlib Require Import ZArith Lia.

Local Open Scope Z_scope.

(** ** Data model *)

(** A timeline event, as passed to [appendTimelineEvent]. *)
Record TimelineEvent := {
  ev_type : string;
  ev_action : string;
  ev_message : string;
  ev_timestamp : Z
}.

(** An audit entry, as built in [tick] (the [details] object is inlined). *)
Record AuditEntry := {
  au_timestamp : Z;
  au_action : string;
  au_actor : string;
  au_oldStatus : string;
  au_newStatus : string;
  au_prevLevel : Z;
  au_newLevel : Z;
  au_previousDeadline : Z;
  au_newDeadline : Z
}.

(** The fields of a complaint document that the watchdog reads or writes.
    [status] is the string the code compares with [===]; optional fields
    are [option]s, [None] standing for [undefined]. *)
Record Complaint := {
  status : string;
  escalationLevel : option Z;
  createdAt : Z;
  updatedAt : Z;
  slaDeadline : option Z;
  expectedResolutionTime : option Z;
  department : option string;
  assignedDepartment : option string;
  severity : string;
  timeline : list TimelineEvent;
  auditLog : list AuditEntry
}.

(** The request object of [geminiService.explainEscalation]. *)
Record ExplainReq := {
  rq_department : option string;
  rq_severity : string;
  rq_elapsedSeconds : Z;
  rq_status : string
}.

(** An element of [escalatedForAI]. *)
Record Escalation := {
  esc_id : string;
  esc_department : option string;
  esc_severity : string;
  esc_status : string;
  esc_elapsedSeconds : Z
}.

(** The value [tick] resolves to. *)
Record TickResult := {
  scanned : nat;
  escalated : nat;
  updatedIds : list string
}.

(** ** Calls that leave the process *)

Inductive Op :=
| OpQuery
| OpGet (id : string)
| OpUpdate (id : string)
| OpTimeline (id : string)
| OpAudit (id : string)
| OpExplain (rq : ExplainReq).

Inductive Error :=
| StoreError (op : Op)
| NotFound (id : string)
| AdvisoryError
| TypeError
| TimestampError.

Inductive Result (A : Type) :=
| Ok (a : A)
| Throw (e : Error).
Arguments Ok {A} a.
Arguments Throw {A} e.

(** What the advisory call does: it rejects (an error or a timeout of the
    client) or it returns a text or nothing. *)
Inductive Outcome :=
| Threw
| Returned (text : option string).

(** [Number(process.env.X)]: a number or [NaN].  Only integer values are
    modelled. *)
Inductive JsNum :=
| NaN
| Num (z : Z).

(** The surroundings of a run: the environment variable, which calls fail
    (given the calls made before), what the advisory service answers, and
    the wall clock read by [new Date()] in the enricher. *)
Record Env := {
  DEMO_SLA_SECONDS : option JsNum;
  fails : list Op → Op → bool;
  advise : list Op → ExplainReq → Outcome;
  clock : list Op → Z
}.

(** The state of the process and of the store. *)
Record Sys := {
  running : bool;
  docs : gmap string Complaint;
  trace : list Op
}.

Definition set_running (b : bool) (s : Sys) : Sys :=
  {| running := b; docs := docs s; trace := trace s |}.
Definition set_docs (d : gmap string Complaint) (s : Sys) : Sys :=
  {| running := running s; docs := d; trace := trace s |}.
Definition log_op (op : Op) (s : Sys) : Sys :=
  {| running := running s; docs := docs s; trace := trace s ++ [op] |}.

(** ** The monad of awaited code *)

Definition M (A : Type) : Type := Sys → Result A * Sys.

Definition ret {A} (a : A) : M A := λ s, (Ok a, s).
Definition throw {A} (e : Error) : M A := λ s, (Throw e, s).
Definition bind {A B} (m : M A) (k : A → M B) : M B :=
  λ s, match m s with
       | (Ok a, s') => k a s'
       | (Throw e, s') => (Throw e, s')
       end.
Definition modify_docs (f : gmap string Complaint → gmap string Complaint) : M unit :=
  λ s, (Ok tt, set_docs (f (docs s)) s).

(** [try m catch h] *)
Definition try_catch {A} (m : M A) (h : M A) : M A :=
  λ s, match m s with
       | (Ok a, s') => (Ok a, s')
       | (Throw _, s') => h s'
       end.

(** [try m finally f], for a [finally] block that cannot throw. *)
Definition try_finally {A} (m : M A) (f : Sys → Sys) : M A :=
  λ s, let r := m s in (r.1, f r.2).

Declare Scope watchdog_scope.
Delimit Scope watchdog_scope with wd.
Notation "'let*' x := m 'in' k" := (bind m (λ x, k))
  (at level 10, x name, k at level 200) : watchdog_scope.
Notation "m ;;; k" := (bind m (λ _, k))
  (at level 100, right associativity) : watchdog_scope.
Local Open Scope watchdog_scope.

(** ** Constants and pure helpers of the module *)

Definition ACTIVE_STATUSES : list string :=
  ["submitted"; "analyzed"; "assigned"; "acknowledged";
   "in_progress"; "on_hold"; "sla_warning"; "escalated"]%string.

Definition js_gt0 (n : JsNum) : bool :=
  match n with
  | NaN => false
  | Num z => 0 <? z
  end.

Definition js_le (n : JsNum) (k : Z) : bool :=
  match n with
  | NaN => false
  | Num z => z <=? k
  end.

(** [Number(process.env.DEMO_SLA_SECONDS ?? d)] *)
Definition env_number (d : Z) (v : option JsNum) : JsNum :=
  match v with
  | None => Num d
  | Some n => n
  end.

Definition WATCHDOG_INTERVAL_MS (v : option JsNum) : Z :=
  let n := env_number 0 v in
  if js_gt0 n && js_le n 30 then 1000 else 60000.

(** A [Date]: its time value is an integer number of milliseconds within
    the range of the language, or [NaN] (an invalid date). *)
Inductive JsDate :=
| InvalidDate
| DateAt (ms : Z).

(** [new Date(n)]: the time value is clipped to 8.64e15 ms. *)
Definition newDate (n : JsNum) : JsDate :=
  match n with
  | NaN => InvalidDate
  | Num z => if Z.abs z <=? 8640000000000000 then DateAt z else InvalidDate
  end.

(** [d.getTime()] *)
Definition getTime (d : JsDate) : JsNum :=
  match d with
  | InvalidDate => NaN
  | DateAt ms => Num ms
  end.

(** [admin.firestore.Timestamp.fromDate(d)]: the timestamp of [d], here the
    milliseconds it stands for.  The library takes the seconds
    [Math.floor(d.getTime() / 1000)] and throws unless they are an integer
    between -62135596800 and 253402300799 (the years 1 to 9999); [None] is
    that throw.  An invalid date has [NaN] seconds and throws too. *)
Definition Timestamp_fromDate (d : JsDate) : option Z :=
  match d with
  | InvalidDate => None
  | DateAt ms =>
    if (-62135596800 <=? ms `div` 1000) && (ms `div` 1000 <=? 253402300799)
    then Some ms
    else None
  end.

(** The milliseconds [Timestamp.fromDate] accepts. *)
Definition timestamp_ms (ms : Z) : Prop :=
  -62135596800 <= ms `div` 1000 <= 253402300799.

Definition getDeadline (c : Complaint) : option Z :=
  match slaDeadline c with
  | Some d => Some d
  | None => expectedResolutionTime c
  end.

(** The test of the [filter] over the query page. *)
Definition isOverdue (now : Z) (c : Complaint) : bool :=
  match (match slaDeadline c with
         | Some d => Some d
         | None => expectedResolutionTime c
         end) with
  | None => false
  | Some deadline => deadline <? now
  end.

(** The [if / else if / else] over [oldStatus]: the new status, the new
    level and the message, or [None] for [continue]. *)
Definition transition (oldStatus : string) : option (string * Z * string) :=
  if (String.eqb oldStatus "analyzed" || String.eqb oldStatus "in_progress"
      || String.eqb oldStatus "submitted")%string
  then Some ("sla_warning", 1, "SLA breached – warning issued")%string
  else if String.eqb oldStatus "sla_warning"
  then Some ("escalated", 2, "SLA escalated to level 2")%string
  else None.

(** [Math.max(1, Math.round((now - createdAt) / 1000))]; [Math.round]
    rounds a half up, which on an integer count of milliseconds is the
    floor of [(d + 500) / 1000]. *)
Definition elapsedSeconds (now created : Z) : Z :=
  Z.max 1 ((now - created + 500) `div` 1000).

Definition extensionMs (v : option JsNum) : Z :=
  let demoSeconds := env_number 10 v in
  match demoSeconds with
  | Num z => if 0 <? z then z * 1000 else 24 * 60 * 60 * 1000
  | NaN => 24 * 60 * 60 * 1000
  end.

Definition timeline_action (newStatus : string) : string :=
  if String.eqb newStatus "sla_warning" then "sla_warning" else "escalated".

Definition audit_action (newStatus : string) (newLevel : Z) : string :=
  if String.eqb newStatus "sla_warning" then "SLA warning issued"
  else "Escalated to level " +:+ pretty newLevel.

Definition zero_result : TickResult :=
  {| scanned := 0; escalated := 0; updatedIds := [] |}.

(** ** The store *)

(** [where('status', 'in', [...ACTIVE_STATUSES])] *)
Definition status_active (c : Complaint) : bool :=
  bool_decide (status c ∈ ACTIVE_STATUSES).

(** [orderBy('updatedAt', 'desc')]: the later update comes first. *)
Definition updated_desc (x y : string * Complaint) : Prop :=
  updatedAt (x.2) >= updatedAt (y.2).

#[local] Instance updated_desc_dec x y : Decision (updated_desc x y).
Proof. unfold updated_desc. apply _. Defined.

(** The page of the bulk query: documents in an active status, most
    recently updated first, at most 250 of them.  Documents with the same
    [updatedAt] come in the order the store lists them. *)
Definition query_page (d : gmap string Complaint) : list (string * Complaint) :=
  take 250 (merge_sort updated_desc
              (filter (λ kc, status_active (kc.2) = true) (map_to_list d))).

Definition set_fields (lvl : Z) (st : string) (upd dl : Z) (c : Complaint) : Complaint :=
  {| status := st;
     escalationLevel := Some lvl;
     createdAt := createdAt c;
     updatedAt := upd;
     slaDeadline := Some dl;
     expectedResolutionTime := Some dl;
     department := department c;
     assignedDepartment := assignedDepartment c;
     severity := severity c;
     timeline := timeline c;
     auditLog := auditLog c |}.

Definition push_timeline (ev : TimelineEvent) (c : Complaint) : Complaint :=
  {| status := status c;
     escalationLevel := escalationLevel c;
     createdAt := createdAt c;
     updatedAt := updatedAt c;
     slaDeadline := slaDeadline c;
     expectedResolutionTime := expectedResolutionTime c;
     department := department c;
     assignedDepartment := assignedDepartment c;
     severity := severity c;
     timeline := timeline c ++ [ev];
     auditLog := auditLog c |}.

Definition audit_eqb (a b : AuditEntry) : bool :=
  (au_timestamp a =? au_timestamp b)
  && String.eqb (au_action a) (au_action b)
  && String.eqb (au_actor a) (au_actor b)
  && String.eqb (au_oldStatus a) (au_oldStatus b)
  && String.eqb (au_newStatus a) (au_newStatus b)
  && (au_prevLevel a =? au_prevLevel b)
  && (au_newLevel a =? au_newLevel b)
  && (au_previousDeadline a =? au_previousDeadline b)
  && (au_newDeadline a =? au_newDeadline b).

(** [FieldValue.arrayUnion(e)]: [e] is added unless an equal element is
    already in the array. *)
Definition arrayUnion (e : AuditEntry) (l : list AuditEntry) : list AuditEntry :=
  if existsb (audit_eqb e) l then l else l ++ [e].

Definition union_audit (e : AuditEntry) (c : Complaint) : Complaint :=
  {| status := status c;
     escalationLevel := escalationLevel c;
     createdAt := createdAt c;
     updatedAt := updatedAt c;
     slaDeadline := slaDeadline c;
     expectedResolutionTime := expectedResolutionTime c;
     department := department c;
     assignedDepartment := assignedDepartment c;
     severity := severity c;
     timeline := timeline c;
     auditLog := arrayUnion e (auditLog c) |}.

Section Watchdog.

Variable E : Env.

(** An awaited call: it is logged, and it rejects when the surroundings
    say so. *)
Definition call (op : Op) : M unit :=
  λ s, if fails E (trace s) op
       then (Throw (StoreError op), log_op op s)
       else (Ok tt, log_op op s).

(** The bulk query of [tick]. *)
Definition runQuery : M (list (string * Complaint)) :=
  call OpQuery ;;;
  λ s, (Ok (query_page (docs s)), s).

(** Modelled from the spec: [firebaseService.getComplaint], "get complaint
    by id"; the caller tests the result against [null]. *)
Definition getComplaint (id : string) : M (option Complaint) :=
  call (OpGet id) ;;;
  λ s, (Ok (docs s !! id), s).

(** Modelled from the spec: [firebaseService.updateComplaintFields],
    "update named fields on complaint by id", here the five fields [tick]
    passes. *)
Definition updateComplaintFields (id : string) (lvl : Z) (st : string)
    (upd dl : Z) : M unit :=
  call (OpUpdate id) ;;;
  modify_docs (alter (set_fields lvl st upd dl) id).

(** Modelled from the spec: [firebaseService.appendTimelineEvent], "append
    an item to an ordered list field on complaint by id". *)
Definition appendTimelineEvent (id : string) (ev : TimelineEvent) : M unit :=
  call (OpTimeline id) ;;;
  modify_docs (alter (push_timeline ev) id).

(** [db.collection('complaints').doc(id).update({auditLog: arrayUnion(e)})];
    Firestore's [update] rejects when the document does not exist. *)
Definition appendAudit (id : string) (e : AuditEntry) : M unit :=
  call (OpAudit id) ;;;
  λ s, match docs s !! id with
       | None => (Throw (NotFound id), s)
       | Some _ => modify_docs (alter (union_audit e) id) s
       end.

(** Modelled from the spec: [geminiService.explainEscalation], "a single
    request/response call" that yields a text or nothing, or throws; what
    it does is read from the surroundings. *)
Definition explainEscalation (rq : ExplainReq) : M (option string) :=
  λ s, match advise E (trace s) rq with
       | Threw => (Throw AdvisoryError, log_op (OpExplain rq) s)
       | Returned o => (Ok o, log_op (OpExplain rq) s)
       end.

(** ** One scan cycle *)

(** What the loop of [tick] accumulates: [updatedIds] and
    [escalatedForAI]. *)
Definition Acc : Type := list string * list Escalation.

(** [a ?? b] on optional strings *)
Definition nullish {A} (a b : option A) : option A :=
  match a with
  | Some x => Some x
  | None => b
  end.

(** The body of [for (const raw of overdue)]; [ret acc] is [continue].

    [newDeadline] is [new Date(now.getTime() + extensionMs)].  The field
    update is handed that date as the number it was built from.  The audit
    entry converts the missed deadline and the new one with
    [Timestamp.fromDate] while the argument of [update] is built, so when
    one of them is no date or lies outside the range of a timestamp the
    turn throws after the timeline append and before the audit call. *)
Definition process_one (now : Z) (rawid : string) (acc : Acc) : M Acc :=
  let* oc := getComplaint rawid in
  match oc with
  | None => ret acc
  | Some complaint =>
    if (String.eqb (status complaint) "resolved"
        || String.eqb (status complaint) "escalated")%string
    then ret acc
    else
      match getDeadline complaint with
      | None => throw TypeError
      | Some slaMs =>
        if now <=? slaMs then ret acc
        else
          let oldStatus := status complaint in
          match transition oldStatus with
          | None => ret acc
          | Some (newStatus, newLevel, message) =>
            let elapsed := elapsedSeconds now (createdAt complaint) in
            let newDeadline := now + extensionMs (DEMO_SLA_SECONDS E) in
            updateComplaintFields rawid newLevel newStatus now newDeadline ;;;
            appendTimelineEvent rawid
              {| ev_type := "system";
                 ev_action := timeline_action newStatus;
                 ev_message := message;
                 ev_timestamp := now |} ;;;
            match Timestamp_fromDate (newDate (Num slaMs)),
                  Timestamp_fromDate (newDate (Num newDeadline)) with
            | Some previousTs, Some newTs =>
              appendAudit rawid
                {| au_timestamp := now;
                   au_action := audit_action newStatus newLevel;
                   au_actor := "system";
                   au_oldStatus := oldStatus;
                   au_newStatus := newStatus;
                   au_prevLevel := default 0 (escalationLevel complaint);
                   au_newLevel := newLevel;
                   au_previousDeadline := previousTs;
                   au_newDeadline := newTs |}
            | _, _ => throw TimestampError
            end ;;;
            ret (acc.1 ++ [rawid],
                 acc.2 ++ [{| esc_id := rawid;
                              esc_department :=
                                nullish (department complaint)
                                        (assignedDepartment complaint);
                              esc_severity := severity complaint;
                              esc_status := newStatus;
                              esc_elapsedSeconds := elapsed |}])
          end
      end
  end.

Fixpoint scan_loop (now : Z) (overdue : list string) (acc : Acc) : M Acc :=
  match overdue with
  | [] => ret acc
  | rawid :: rest =>
    let* acc' := process_one now rawid acc in
    scan_loop now rest acc'
  end.

(** The [try] block of [tick].  Besides the result it yields
    [escalatedForAI], the argument of the detached enricher.  [now] is the
    reading of the clock ([new Date()]), a time of the present; its
    timestamp [nowTs] is the [now] of the audit entries. *)
Definition tick_body (now : Z) : M (TickResult * list Escalation) :=
  let* snap := runQuery in
  let overdue := filter (λ kc, isOverdue now (kc.2) = true) snap in
  let* acc := scan_loop now (overdue.*1) ([], []) in
  ret ({| scanned := length snap;
          escalated := length (acc.1);
          updatedIds := acc.1 |}, acc.2).

(** [tick()], called at time [now]. *)
Definition tick (now : Z) : M (TickResult * list Escalation) :=
  λ s, if running s then (Ok (zero_result, []), s)
       else try_finally (tick_body now) (set_running false) (set_running true s).

(** ** The advisory enricher *)

Definition explain_one (esc : Escalation) : M unit :=
  try_catch
    (let* justification :=
       explainEscalation {| rq_department := esc_department esc;
                            rq_severity := esc_severity esc;
                            rq_elapsedSeconds := esc_elapsedSeconds esc;
                            rq_status := esc_status esc |} in
     let message :=
       match justification with
       | Some (String a j) => "AI justification: " +:+ String a j
       | _ => "System escalation enforced due to SLA breach."
       end in
     λ s, appendTimelineEvent (esc_id esc)
            {| ev_type := "system";
               ev_action := "ai_escalation_justification";
               ev_message := message;
               ev_timestamp := clock E (trace s) |} s)
    (λ s, appendTimelineEvent (esc_id esc)
            {| ev_type := "system";
               ev_action := "ai_escalation_justification_failed";
               ev_message := "System escalation enforced due to SLA breach. AI justification unavailable.";
               ev_timestamp := clock E (trace s) |} s).

Fixpoint addEscalationExplanations (escalations : list Escalation) : M unit :=
  match escalations with
  | [] => ret tt
  | esc :: rest => explain_one esc ;;; addEscalationExplanations rest
  end.

(** A cycle followed by its detached enricher, whose rejection is caught
    and logged by the [.catch] of [tick]. *)
Definition cycle (now : Z) (s : Sys) : Sys :=
  match tick now s with
  | (Ok (_, escs), s') => (addEscalationExplanations escs s').2
  | (Throw _, s') => s'
  end.

Fixpoint cycles (nows : list Z) (s : Sys) : Sys :=
  match nows with
  | [] => s
  | now :: rest => cycles rest (cycle now s)
  end.

(** Cycles alone, the enrichers never getting to run. *)
Fixpoint ticks (nows : list Z) (s : Sys) : Sys :=
  match nows with
  | [] => s
  | now :: rest => ticks rest (tick now s).2
  end.

End Watchdog.

(** ** Definitions the statements use *)

(** The timeline event and the audit entry [tick] builds for a transition. *)
Definition tick_event (now : Z) (newStatus message : string) : TimelineEvent :=
  {| ev_type := "system";
     ev_action := timeline_action newStatus;
     ev_message := message;
     ev_timestamp := now |}.

Definition tick_audit (E : Env) (now : Z) (c : Complaint) (newStatus : string)
    (newLevel slaMs : Z) : AuditEntry :=
  {| au_timestamp := now;
     au_action := audit_action newStatus newLevel;
     au_actor := "system";
     au_oldStatus := status c;
     au_newStatus := newStatus;
     au_prevLevel := default 0 (escalationLevel c);
     au_newLevel := newLevel;
     au_previousDeadline := slaMs;
     au_newDeadline := now + extensionMs (DEMO_SLA_SECONDS E) |}.

(** [committed E now c c']: [c'] is [c] after the field update of a
    transition at [now], with or without the timeline event and the audit
    entry that follow it (a later write may fail). *)
Definition committed (E : Env) (now : Z) (c c' : Complaint) : Prop :=
  ∃ newStatus newLevel message slaMs,
    transition (status c) = Some (newStatus, newLevel, message) ∧
    getDeadline c = Some slaMs ∧ slaMs < now ∧
    let c1 := set_fields newLevel newStatus now
                (now + extensionMs (DEMO_SLA_SECONDS E)) c in
    let c2 := push_timeline (tick_event now newStatus message) c1 in
    let c3 := union_audit (tick_audit E now c newStatus newLevel slaMs) c2 in
    c' = c1 ∨ c' = c2 ∨ c' = c3.

(** The watchdog's edges on (status, level). *)
Definition watchdog_edge (c c' : Complaint) : Prop :=
  (status c ∈ ["submitted"; "analyzed"; "in_progress"]%string ∧
   status c' = "sla_warning"%string ∧ escalationLevel c' = Some 1)
  ∨ (status c = "sla_warning"%string ∧
     status c' = "escalated"%string ∧ escalationLevel c' = Some 2).

(** The escalation record pushed for a transition of [c] at [now]. *)
Definition escalation_of (now : Z) (id : string) (c : Complaint)
    (newStatus : string) : Escalation :=
  {| esc_id := id;
     esc_department := nullish (department c) (assignedDepartment c);
     esc_severity := severity c;
     esc_status := newStatus;
     esc_elapsedSeconds := elapsedSeconds now (createdAt c) |}.

(** The ids the loop of a cycle goes through. *)
Definition overdue_ids (now : Z) (d : gmap string Complaint) : list string :=
  (filter (λ kc, isOverdue now (kc.2) = true) (query_page d)).*1.

(** The request the enricher sends for one escalation. *)
Definition request_of (esc : Escalation) : ExplainReq :=
  {| rq_department := esc_department esc;
     rq_severity := esc_severity esc;
     rq_elapsedSeconds := esc_elapsedSeconds esc;
     rq_status := esc_status esc |}.

(** * Concrete runs *)

Module Fixtures.

(** A complaint with no timeline and no audit log yet. *)
Definition complaint (st : string) (lvl : option Z) (created upd : Z)
    (deadline : option Z) : Complaint :=
  {| status := st;
     escalationLevel := lvl;
     createdAt := created;
     updatedAt := upd;
     slaDeadline := deadline;
     expectedResolutionTime := None;
     department := Some "roads"%string;
     assignedDepartment := None;
     severity := "high";
     timeline := [];
     auditLog := [] |}.

Definition store (l : list (string * Complaint)) : Sys :=
  {| running := false; docs := list_to_map l; trace := [] |}.

(** Surroundings in which no call fails and the advisory service answers
    [answer]. *)
Definition quiet (v : option JsNum) (answer : Outcome) : Env :=
  {| DEMO_SLA_SECONDS := v;
     fails := λ _ _, false;
     advise := λ _ _, answer;
     clock := λ _, 99000 |}.

(** Surroundings in which exactly the calls in [bad] fail. *)
Definition faulty (v : option JsNum) (bad : Op → bool) : Env :=
  {| DEMO_SLA_SECONDS := v;
     fails := λ _ op, bad op;
     advise := λ _ _, Returned None;
     clock := λ _, 99000 |}.

Definition is_audit_of (id : string) (op : Op) : bool :=
  match op with
  | OpAudit id' => String.eqb id id'
  | _ => false
  end.

(** ** Scenario A of the specification

    A complaint submitted at 0 with its deadline at 10 s, scanned at 11 s
    with the environment variable unset. *)

Definition envA : Env := quiet None (Returned None).
Definition beforeA : Complaint := complaint "submitted" None 0 0 (Some 10000).
Definition sysA : Sys := store [("c1"%string, beforeA)].
Definition afterA : Complaint :=
  Eval vm_compute in default beforeA (docs (tick envA 11000 sysA).2 !! "c1"%string).

(** An escalated complaint. *)
Definition escalatedB : Complaint :=
  complaint "escalated" (Some 2) 0 0 (Some 10000).

(** Two overdue complaints; in [envFail] the audit append of the first
    one rejects. *)
Definition envOk : Env := quiet (Some (Num 10)) (Returned None).
Definition envFail : Env := faulty (Some (Num 10)) (is_audit_of "c1").
Definition firstC : Complaint := complaint "submitted" None 0 5 (Some 10000).
Definition secondC : Complaint := complaint "submitted" None 0 0 (Some 10000).
Definition sysTwo : Sys := store [("c1"%string, firstC); ("c2"%string, secondC)].

(** A complaint whose deadline is exactly the [now] of the cycle. *)
Definition notYetDue : Complaint := complaint "submitted" None 0 0 (Some 11000).

(** A complaint in sla_warning and the escalation record of scenario A. *)
Definition warnedC : Complaint := complaint "sla_warning" (Some 1) 0 11000 (Some 21000).
Definition sysW : Sys := store [("c1"%string, warnedC)].
Definition escA : Escalation := escalation_of 11000 "c1" beforeA "sla_warning".

(** A complaint at level 2 whose status was set back to in_progress. *)
Definition reopenedC : Complaint := complaint "in_progress" (Some 2) 0 0 (Some 10000).

(** A complaint created after the [now] of the cycle. *)
Definition futureC : Complaint := complaint "submitted" None 50000 0 (Some 10000).

End Fixtures.

(** * The rest of the watchdog module, and the modules around it *)

(** ** The timer driver: [start] and [stop]

    The timers of the runtime are a list of active intervals and a list of
    pending one-shot timers, each under the handle [setInterval] or
    [setTimeout] returned for it; handles are handed out in order. *)

Record Timers := {
  timer : option nat;
  timeouts : list (nat * Z);
  intervals : list (nat * Z);
  next_handle : nat
}.

(** [clearInterval(h)] *)
Definition clearInterval (h : nat) (l : list (nat * Z)) : list (nat * Z) :=
  filter (λ x, x.1 ≠ h) l.

(** [start()]; [jitter] is the value of
    [Math.floor(Math.random() * 1500)] and [v] the environment variable. *)
Definition start (v : option JsNum) (jitter : Z) (t : Timers) : Timers :=
  match timer t with
  | Some _ => t
  | None =>
    let initialDelayMs := 500 + jitter in
    {| timer := Some (S (next_handle t));
       timeouts := timeouts t ++ [(next_handle t, initialDelayMs)];
       intervals := intervals t ++ [(S (next_handle t), WATCHDOG_INTERVAL_MS v)];
       next_handle := S (S (next_handle t)) |}
  end.

(** [stop()] *)
Definition stop (t : Timers) : Timers :=
  {| timer := None;
     timeouts := timeouts t;
     intervals := match timer t with
                  | Some h => clearInterval h (intervals t)
                  | None => intervals t
                  end;
     next_handle := next_handle t |}.

(** The calls a host makes on the driver. *)
Inductive TimerCall :=
| CallStart (jitter : Z)
| CallStop.

Definition timer_call (v : option JsNum) (c : TimerCall) (t : Timers) : Timers :=
  match c with
  | CallStart jitter => start v jitter t
  | CallStop => stop t
  end.

Fixpoint timer_calls (v : option JsNum) (cs : list TimerCall) (t : Timers) : Timers :=
  match cs with
  | [] => t
  | c :: rest => timer_calls v rest (timer_call v c t)
  end.

(** A freshly constructed service: [timer = null], nothing scheduled. *)
Definition idle : Timers :=
  {| timer := None; timeouts := []; intervals := []; next_handle := 0 |}.

(** ** The date helpers: [normalizeDate], [formatDate], [formatRelativeTime] *)

(** The values [normalizeDate] tells apart.  [VSeconds n] is an object
    whose [seconds] field is the number [n] (a Firestore timestamp);
    [VOther] is any other truthy value that is not a date, a string or a
    number.  Numbers are integers or [NaN], as before. *)
Inductive JsVal :=
| VUndefined
| VNull
| VFalse
| VNumber (n : JsNum)
| VString (s : string)
| VDate (d : JsDate)
| VSeconds (n : JsNum)
| VOther.

Definition js_mul (n : JsNum) (k : Z) : JsNum :=
  match n with
  | NaN => NaN
  | Num z => Num (z * k)
  end.

(** [!input] *)
Definition falsy (v : JsVal) : bool :=
  match v with
  | VUndefined | VNull | VFalse => true
  | VNumber NaN => true
  | VNumber (Num z) => z =? 0
  | VString s => String.eqb s ""
  | _ => false
  end.

Section DateUtils.

(** [new Date(s)] on a string, which is left to the runtime. *)
Variable parseDate : string → JsDate.

(** [d.toLocaleString()], which is left to the runtime; [None] when it
    throws. *)
Variable toLocaleString : JsDate → option string.

Definition normalizeDate (input : JsVal) : option JsDate :=
  if falsy input then None
  else match input with
       | VDate d => Some d
       | VString s =>
         let date := parseDate s in
         match getTime date with
         | NaN => None
         | Num _ => Some date
         end
       | VSeconds seconds => Some (newDate (js_mul seconds 1000))
       | VNumber n => Some (newDate n)
       | _ => None
       end.

Definition formatDate (input : JsVal) (fallback : string) : string :=
  match normalizeDate input with
  | None => fallback
  | Some date =>
    match toLocaleString date with
    | Some s => s
    | None => fallback
    end
  end.

(** [formatRelativeTime(input)] when [Date.now()] is [now].  On an invalid
    date every comparison with [NaN] is false and the last branch prints
    [NaN]. *)
Definition formatRelativeTime (now : Z) (input : JsVal) : string :=
  match normalizeDate input with
  | None => "Unknown time"
  | Some date =>
    match getTime date with
    | NaN => "NaNd ago"
    | Num t =>
      let diff := now - t in
      let seconds := Z.abs diff `div` 1000 in
      let minutes := seconds `div` 60 in
      let hours := minutes `div` 60 in
      let days := hours `div` 24 in
      if seconds <? 60 then "Just now"
      else if minutes <? 60 then pretty minutes +:+ "m ago"
      else if hours <? 24 then pretty hours +:+ "h ago"
      else pretty days +:+ "d ago"
    end
  end.

End DateUtils.

(** ** The complaint card *)

(** [const isEscalated = complaint.escalationLevel > 0] *)
Definition isEscalated (c : Complaint) : bool :=
  match escalationLevel c with
  | Some l => 0 <? l
  | None => false
  end.

(** ** Definitions the further statements use *)

(** How many transitions the watchdog still has for a status: the number
    of times [transition] can be followed from it. *)
Definition remaining (st : string) : nat :=
  match transition st with
  | None => 0
  | Some (st1, _, _) =>
    match transition st1 with
    | None => 1
    | Some _ => 2
    end
  end.

(** [c'] is [c] with the events [evs] appended to its timeline. *)
Definition timeline_extended (c : Complaint) (evs : list TimelineEvent)
    (c' : Complaint) : Prop :=
  c' = {| status := status c;
          escalationLevel := escalationLevel c;
          createdAt := createdAt c;
          updatedAt := updatedAt c;
          slaDeadline := slaDeadline c;
          expectedResolutionTime := expectedResolutionTime c;
          department := department c;
          assignedDepartment := assignedDepartment c;
          severity := severity c;
          timeline := timeline c ++ evs;
          auditLog := auditLog c |}.

(** The document a complaint becomes when all three writes of a transition
    at [now] go through; [None] when the watchdog has no transition for its
    status or it has no deadline. *)
Definition commit_all (E : Env) (now : Z) (c : Complaint) : option Complaint :=
  match transition (status c), getDeadline c with
  | Some (newStatus, newLevel, message), Some slaMs =>
    Some (union_audit (tick_audit E now c newStatus newLevel slaMs)
            (push_timeline (tick_event now newStatus message)
               (set_fields newLevel newStatus now
                  (now + extensionMs (DEMO_SLA_SECONDS E)) c)))
  | _, _ => None
  end.

(** The event the [catch] block of the enricher appends at time [t]. *)
Definition failed_event (t : Z) : TimelineEvent :=
  {| ev_type := "system";
     ev_action := "ai_escalation_justification_failed";
     ev_message := "System escalation enforced due to SLA breach. AI justification unavailable.";
     ev_timestamp := t |}.

(** The event the [try] block of the enricher appends at time [t] for the
    answer [o] of the advisory service. *)
Definition justification_event (o : option string) (t : Z) : TimelineEvent :=
  {| ev_type := "system";
     ev_action := "ai_escalation_justification";
     ev_message := match o with
                   | Some (String a j) => "AI justification: " +:+ String a j
                   | _ => "System escalation enforced due to SLA breach."
                   end;
     ev_timestamp := t |}.

(** An event the enricher can append. *)
Definition enricher_event (ev : TimelineEvent) : Prop :=
  ∃ t, ev = failed_event t ∨ ∃ o, ev = justification_event o t.

(** What a cycle and its enricher may do to one document: the fields the
    watchdog does not own stay, the timeline and the audit log grow at the
    end, and each growth is paid for by transitions that are used up. *)
Definition watchdog_step (c c' : Complaint) : Prop :=
  createdAt c' = createdAt c ∧
  department c' = department c ∧
  assignedDepartment c' = assignedDepartment c ∧
  severity c' = severity c ∧
  timeline c `prefix_of` timeline c' ∧
  auditLog c `prefix_of` auditLog c' ∧
  (length (timeline c') + 2 * remaining (status c')
   ≤ length (timeline c) + 2 * remaining (status c))%nat ∧
  (length (auditLog c') + remaining (status c')
   ≤ length (auditLog c) + remaining (status c))%nat.

Module MoreFixtures.

Import Fixtures.

(** Surroundings in which only the first timeline append after the
    advisory call fails. *)
Definition envRetry (answer : Outcome) : Env :=
  {| DEMO_SLA_SECONDS := None;
     fails := λ h op, match op, h with
                      | OpTimeline _, [OpExplain _] => true
                      | _, _ => false
                      end;
     advise := λ _ _, answer;
     clock := λ _, 99000 |}.

(** Surroundings in which every timeline append fails. *)
Definition timelineFails : Env :=
  faulty None (λ op, match op with OpTimeline _ => true | _ => false end).

(** A string parser that knows one date. *)
Definition parseOne (s : string) : JsDate :=
  if String.eqb s "1970-01-01T00:01:00Z" then DateAt 60000 else InvalidDate.

Definition localeNone (d : JsDate) : option string := None.

End MoreFixtures.

(** * Properties *)

(** ** What one committed transition does to a document *)

Lemma String_eqb_true (a b : string) : String.eqb a b = true ↔ a = b.
Proof. apply String.eqb_eq. Qed.

Lemma String_eqb_false (a b : string) : String.eqb a b = false ↔ a ≠ b.
Proof. apply String.eqb_neq. Qed.

Lemma transition_Some oldStatus newStatus newLevel message :
  transition oldStatus = Some (newStatus, newLevel, message) ↔
  (oldStatus ∈ ["submitted"; "analyzed"; "in_progress"]%string ∧
   newStatus = "sla_warning"%string ∧ newLevel = 1 ∧
   message = "SLA breached – warning issued"%string)
  ∨ (oldStatus = "sla_warning"%string ∧ newStatus = "escalated"%string ∧
     newLevel = 2 ∧ message = "SLA escalated to level 2"%string).
Proof.
  unfold transition. rewrite !elem_of_cons, elem_of_nil.
  destruct (String.eqb_spec oldStatus "analyzed") as [->|Ha];
    [|destruct (String.eqb_spec oldStatus "in_progress") as [->|Hi];
      [|destruct (String.eqb_spec oldStatus "submitted") as [->|Hs];
        [|destruct (String.eqb_spec oldStatus "sla_warning") as [->|Hw]]]];
    simpl; (split; [intros [= <- <- <-]; try (left; by auto); try (right; by auto)|]).
  all: intros [(Hin & -> & -> & ->)|(Hw' & -> & -> & ->)]; done || tauto.
Qed.

Lemma transition_None oldStatus :
  transition oldStatus = None ↔
  oldStatus ∉ ["submitted"; "analyzed"; "in_progress"; "sla_warning"]%string.
Proof.
  destruct (transition oldStatus) as [[[ns nl] msg]|] eqn:Ht.
  - apply transition_Some in Ht. rewrite !not_elem_of_cons.
    rewrite !elem_of_cons in Ht. split; [done|]. intros Hn. exfalso.
    destruct Ht as [[[->|[->|[->|[]%elem_of_nil]]] _]|[-> _]]; tauto.
  - split; [|done]. intros _ Hin.
    assert (is_Some (transition oldStatus)) as [? ?]; [|congruence].
    rewrite !elem_of_cons in Hin.
    destruct Hin as [->|[->|[->|[->|[]%elem_of_nil]]]]; by eexists.
Qed.

Lemma committed_edge E now c c' : committed E now c c' → watchdog_edge c c'.
Proof.
  intros (ns & nl & msg & d & Ht & _ & _ & Hc).
  apply transition_Some in Ht.
  assert (status c' = ns ∧ escalationLevel c' = Some nl) as [Hs Hl].
  { simpl in Hc. destruct Hc as [->|[->| ->]]; done. }
  destruct Ht as [(Hin & -> & -> & _)|(Ho & -> & -> & _)]; [left|right]; done.
Qed.

Lemma committed_deadline E now c c' :
  committed E now c c' →
  slaDeadline c' = Some (now + extensionMs (DEMO_SLA_SECONDS E)) ∧
  expectedResolutionTime c' = Some (now + extensionMs (DEMO_SLA_SECONDS E)) ∧
  updatedAt c' = now.
Proof.
  intros (ns & nl & msg & d & _ & _ & _ & Hc).
  simpl in Hc. destruct Hc as [->|[->| ->]]; done.
Qed.

Lemma committed_overdue E now c c' :
  committed E now c c' → ∃ d, getDeadline c = Some d ∧ d < now.
Proof. intros (ns & nl & msg & d & _ & Hd & Hlt & _). eauto. Qed.

Lemma committed_not_terminal E now c c' :
  committed E now c c' →
  status c ≠ "resolved"%string ∧ status c ≠ "escalated"%string.
Proof.
  intros Hc. apply committed_edge in Hc.
  destruct Hc as [(Hin & _)|(Hs & _)].
  - rewrite !elem_of_cons in Hin.
    destruct Hin as [->|[->|[->|[]%elem_of_nil]]]; done.
  - rewrite Hs. done.
Qed.

(** ** The awaited calls, one by one *)

Section Steps.

Variable E : Env.

Lemma call_inv op s r s' :
  call E op s = (r, s') →
  s' = log_op op s ∧
  ((r = Ok tt ∧ fails E (trace s) op = false)
   ∨ (r = Throw (StoreError op) ∧ fails E (trace s) op = true)).
Proof.
  unfold call. destruct (fails E (trace s) op); intros [= <- <-]; auto.
Qed.

Lemma getComplaint_inv id s r s' :
  getComplaint E id s = (r, s') →
  s' = log_op (OpGet id) s ∧ (r = Ok (docs s !! id) ∨ ∃ e, r = Throw e).
Proof.
  unfold getComplaint, bind.
  destruct (call E (OpGet id) s) as [[[]|e] s1] eqn:Hc;
    apply call_inv in Hc as [-> _]; intros [= <- <-]; eauto.
Qed.

Lemma write_inv (f : Complaint → Complaint) op s r s' :
  (call E op ;;; modify_docs (alter f (match op with
                                       | OpUpdate id | OpTimeline id => id
                                       | _ => ""%string
                                       end))) s = (r, s') →
  running s' = running s ∧ trace s' = trace s ++ [op] ∧
  ((r = Ok tt ∧ fails E (trace s) op = false ∧
    docs s' = alter f (match op with
                       | OpUpdate id | OpTimeline id => id
                       | _ => ""%string
                       end) (docs s))
   ∨ (r = Throw (StoreError op) ∧ docs s' = docs s)).
Proof.
  unfold bind, modify_docs.
  destruct (call E op s) as [[[]|e] s1] eqn:Hc;
    apply call_inv in Hc as [-> [[Hr Hf]|[Hr Hf]]]; try discriminate;
    intros [= <- <-]; simpl; repeat split; auto.
Qed.

Lemma updateComplaintFields_inv id lvl st upd dl s r s' :
  updateComplaintFields E id lvl st upd dl s = (r, s') →
  running s' = running s ∧ trace s' = trace s ++ [OpUpdate id] ∧
  ((r = Ok tt ∧ fails E (trace s) (OpUpdate id) = false ∧
    docs s' = alter (set_fields lvl st upd dl) id (docs s))
   ∨ (r = Throw (StoreError (OpUpdate id)) ∧ docs s' = docs s)).
Proof. apply (write_inv _ (OpUpdate id)). Qed.

Lemma appendTimelineEvent_inv id ev s r s' :
  appendTimelineEvent E id ev s = (r, s') →
  running s' = running s ∧ trace s' = trace s ++ [OpTimeline id] ∧
  ((r = Ok tt ∧ fails E (trace s) (OpTimeline id) = false ∧
    docs s' = alter (push_timeline ev) id (docs s))
   ∨ (r = Throw (StoreError (OpTimeline id)) ∧ docs s' = docs s)).
Proof. apply (write_inv _ (OpTimeline id)). Qed.

Lemma appendAudit_inv id e s r s' :
  appendAudit E id e s = (r, s') →
  running s' = running s ∧ trace s' = trace s ++ [OpAudit id] ∧
  ((r = Ok tt ∧ docs s' = alter (union_audit e) id (docs s))
   ∨ ((∃ err, r = Throw err) ∧ docs s' = docs s)).
Proof.
  unfold appendAudit, bind, modify_docs.
  destruct (call E (OpAudit id) s) as [[[]|err] s1] eqn:Hc;
    apply call_inv in Hc as [-> _].
  - simpl. destruct (docs s !! id); intros [= <- <-]; simpl; eauto 10.
  - intros [= <- <-]; simpl; eauto 10.
Qed.

Lemma Timestamp_fromDate_Some (z t : Z) :
  Timestamp_fromDate (newDate (Num z)) = Some t →
  t = z ∧ -62135596800 <= z `div` 1000 <= 253402300799.
Proof.
  unfold Timestamp_fromDate, newDate.
  destruct (Z.abs z <=? 8640000000000000); [|done].
  destruct (Z.leb_spec (-62135596800) (z `div` 1000)); [|done].
  destruct (Z.leb_spec (z `div` 1000) 253402300799); [|done].
  simpl. intros [= <-]. lia.
Qed.

Lemma newDate_in_range (z : Z) :
  -62135596800 <= z `div` 1000 <= 253402300799 →
  newDate (Num z) = DateAt z.
Proof.
  intros [Hlo Hhi]. unfold newDate.
  pose proof (Z.div_mod z 1000 ltac:(lia)).
  pose proof (Z.mod_pos_bound z 1000 ltac:(lia)).
  destruct (Z.leb_spec (Z.abs z) 8640000000000000); [done|lia].
Qed.

Lemma Timestamp_fromDate_in_range (z : Z) :
  -62135596800 <= z `div` 1000 <= 253402300799 →
  Timestamp_fromDate (newDate (Num z)) = Some z.
Proof.
  intros [Hlo Hhi]. unfold Timestamp_fromDate, newDate.
  assert (Z.abs z <= 8640000000000000) as Habs.
  { pose proof (Z.div_mod z 1000 ltac:(lia)).
    pose proof (Z.mod_pos_bound z 1000 ltac:(lia)). lia. }
  destruct (Z.leb_spec (Z.abs z) 8640000000000000); [|lia].
  destruct (Z.leb_spec (-62135596800) (z `div` 1000)); [|lia].
  destruct (Z.leb_spec (z `div` 1000) 253402300799); [|lia].
  reflexivity.
Qed.

(** One turn of the loop: either nothing is written and the accumulator is
    returned as it was (or the turn throws), or the document fetched under
    [id] goes through a committed transition and nothing else changes; the
    accumulator grows exactly when all three writes went through. *)
Lemma process_one_spec now id acc s r s' :
  process_one E now id acc s = (r, s') →
  running s' = running s ∧
  ((docs s' = docs s ∧ (r = Ok acc ∨ ∃ e, r = Throw e))
   ∨ ∃ c c' newStatus,
       docs s !! id = Some c ∧ committed E now c c' ∧
       status c' = newStatus ∧
       docs s' = <[id := c']> (docs s) ∧
       (r = Ok (acc.1 ++ [id], acc.2 ++ [escalation_of now id c newStatus])
        ∨ ∃ e, r = Throw e)).
Proof.
  unfold process_one, bind at 1.
  destruct (getComplaint E id s) as [[oc|e] s0] eqn:Hg;
    apply getComplaint_inv in Hg as [-> Hr]; [|intros [= <- <-]; eauto 10].
  destruct Hr as [[= ->]|[? [=]]].
  destruct (docs s !! id) as [c|] eqn:Hc; [|intros [= <- <-]; eauto 10].
  destruct (_ || _)%bool; [intros [= <- <-]; eauto 10|].
  destruct (getDeadline c) as [d|] eqn:Hd; [|intros [= <- <-]; eauto 10].
  destruct (Z.leb_spec now d) as [Hle|Hlt]; [intros [= <- <-]; eauto 10|].
  destruct (transition (status c)) as [[[ns nl] msg]|] eqn:Ht;
    [|intros [= <- <-]; eauto 10].
  set (c1 := set_fields nl ns now (now + extensionMs (DEMO_SLA_SECONDS E)) c).
  set (c2 := push_timeline (tick_event now ns msg) c1).
  set (c3 := union_audit (tick_audit E now c ns nl d) c2).
  assert (∀ x, x = c1 ∨ x = c2 ∨ x = c3 → committed E now c x) as Hcm.
  { intros x Hx. exists ns, nl, msg, d. auto. }
  unfold bind.
  destruct (updateComplaintFields _ _ _ _ _ _ _) as [[[]|e] s1] eqn:H1;
    apply updateComplaintFields_inv in H1
      as (Hr1 & _ & [(Hk1 & _ & Hd1)|(Hk1 & Hd1)]); try discriminate.
  2: { intros [= <- <-]. split; [done|]. left. rewrite Hd1. simpl. eauto. }
  assert (docs s1 = <[id := c1]> (docs s)) as Hd1'.
  { rewrite Hd1. simpl. apply map_eq. intros j.
    destruct (decide (id = j)) as [<-|Hne].
    - by rewrite lookup_alter_eq, lookup_insert_eq, Hc.
    - by rewrite lookup_alter_ne, lookup_insert_ne. }
  destruct (appendTimelineEvent _ _ _ _) as [[[]|e] s2] eqn:H2;
    apply appendTimelineEvent_inv in H2
      as (Hr2 & _ & [(Hk2 & _ & Hd2)|(Hk2 & Hd2)]); try discriminate.
  2: { intros [= <- <-]. split; [simpl in *; congruence|]. right. exists c, c1, ns.
       repeat split; eauto. congruence. }
  assert (docs s2 = <[id := c2]> (docs s)) as Hd2'.
  { rewrite Hd2, Hd1'. apply map_eq. intros j.
    destruct (decide (id = j)) as [<-|Hne].
    - by rewrite lookup_alter_eq, !lookup_insert_eq.
    - by rewrite lookup_alter_ne, !lookup_insert_ne. }
  destruct (Timestamp_fromDate (newDate (Num d))) as [pt|] eqn:Hpt.
  2: { intros [= <- <-]. split; [simpl in *; congruence|]. right.
       exists c, c2, ns. repeat split; eauto. }
  destruct (Timestamp_fromDate (newDate (Num (now + extensionMs (DEMO_SLA_SECONDS E)))))
    as [nt|] eqn:Hnt.
  2: { intros [= <- <-]. split; [simpl in *; congruence|]. right.
       exists c, c2, ns. repeat split; eauto. }
  apply Timestamp_fromDate_Some in Hpt as [-> _].
  apply Timestamp_fromDate_Some in Hnt as [-> _].
  destruct (appendAudit _ _ _ _) as [[[]|e] s3] eqn:H3;
    apply appendAudit_inv in H3
      as (Hr3 & _ & [(Hk3 & Hd3)|([e' Hk3] & Hd3)]); try discriminate.
  2: { intros [= <- <-]. split; [simpl in *; congruence|]. right. exists c, c2, ns.
       repeat split; eauto. congruence. }
  intros [= <- <-]. split; [simpl in *; congruence|]. right. exists c, c3, ns.
  split; [done|]. split; [auto|]. split; [done|]. split; [|by left].
  rewrite Hd3, Hd2'. apply map_eq. intros j.
  destruct (decide (id = j)) as [<-|Hne].
  - by rewrite lookup_alter_eq, !lookup_insert_eq.
  - by rewrite lookup_alter_ne, !lookup_insert_ne.
Qed.

End Steps.

(** ** The loop and the cycle *)

Section Cycle.

Variable E : Env.

Lemma scan_loop_running now ids acc s r s' :
  scan_loop E now ids acc s = (r, s') → running s' = running s.
Proof.
  revert acc s. induction ids as [|id ids IH]; intros acc s; simpl.
  - by intros [= <- <-].
  - unfold bind. destruct (process_one E now id acc s) as [[acc1|e] s1] eqn:Hp;
      apply process_one_spec in Hp as [Hr _].
    + intros Hl%IH. congruence.
    + intros [= <- <-]. done.
Qed.

(** A document that admits no transition at [now] is left as it is by the
    loop, whatever ids the loop is given and wherever it stops. *)
Lemma scan_loop_frame now ids acc s r s' k c :
  scan_loop E now ids acc s = (r, s') →
  docs s !! k = Some c →
  (∀ c', ¬ committed E now c c') →
  docs s' !! k = Some c.
Proof.
  intros Hl Hk Hno. revert acc s Hl Hk.
  induction ids as [|id ids IH]; intros acc s; simpl.
  - by intros [= <- <-].
  - unfold bind. destruct (process_one E now id acc s) as [[acc1|e] s1] eqn:Hp;
      apply process_one_spec in Hp as [_ Hp]; intros Hl Hk.
    all: assert (docs s1 !! k = Some c) as Hk1.
    1,3: destruct Hp as [[-> _]|(c0 & c' & ns & Hc0 & Hcm & _ & -> & _)];
         [done|];
         destruct (decide (id = k)) as [->|Hne];
         [rewrite Hk in Hc0; injection Hc0 as <-; by destruct (Hno c')
         |by rewrite lookup_insert_ne].
    + by eapply IH.
    + by injection Hl as <- <-.
Qed.

(** Over distinct ids, every document is either untouched by the loop or
    has gone through exactly one committed transition. *)
Lemma scan_loop_spec now ids acc s r s' k :
  NoDup ids →
  scan_loop E now ids acc s = (r, s') →
  docs s' !! k = docs s !! k
  ∨ (k ∈ ids ∧ ∃ c c', docs s !! k = Some c ∧ docs s' !! k = Some c' ∧
                        committed E now c c').
Proof.
  intros Hnd. revert acc s.
  induction Hnd as [|id ids Hnotin Hnd IH]; intros acc s; simpl.
  - intros [= <- <-]. by left.
  - unfold bind. destruct (process_one E now id acc s) as [[acc1|e] s1] eqn:Hp;
      apply process_one_spec in Hp as [_ Hp]; intros Hl.
    + apply IH in Hl.
      destruct Hp as [[Hd _]|(c0 & c' & ns & Hc0 & Hcm & _ & Hd & _)].
      * rewrite Hd in Hl. destruct Hl as [Hl|(Hin & Hl)]; [by left|].
        right. split; [by apply list_elem_of_further|done].
      * destruct (decide (id = k)) as [->|Hne].
        -- destruct Hl as [Hl|(Hin & _)]; [|done].
           right. split; [apply list_elem_of_here|].
           exists c0, c'. rewrite Hl, Hd, lookup_insert_eq. done.
        -- rewrite Hd, lookup_insert_ne in Hl by done.
           destruct Hl as [Hl|(Hin & Hl)]; [by left|].
           right. split; [by apply list_elem_of_further|done].
    + injection Hl as <- <-.
      destruct Hp as [[-> _]|(c0 & c' & ns & Hc0 & Hcm & _ & -> & _)];
        [by left|].
      destruct (decide (id = k)) as [->|Hne].
      * right. split; [apply list_elem_of_here|].
        exists c0, c'. by rewrite lookup_insert_eq.
      * left. by rewrite lookup_insert_ne.
Qed.

(** Every record the loop pushes on [escalatedForAI] was built from a
    fetched document at the cycle's [now]. *)
Lemma scan_loop_escalations now ids acc s acc' s' (P : Escalation → Prop) :
  (∀ id c ns, P (escalation_of now id c ns)) →
  scan_loop E now ids acc s = (Ok acc', s') →
  Forall P (acc.2) → Forall P (acc'.2).
Proof.
  intros HP. revert acc s.
  induction ids as [|id ids IH]; intros acc s; simpl.
  - by intros [= <- <-].
  - unfold bind. destruct (process_one E now id acc s) as [[acc1|e] s1] eqn:Hp;
      [|done].
    apply process_one_spec in Hp as [_ Hp]. intros Hl Hacc.
    eapply IH; [done|].
    destruct Hp as [[_ [[= ->]|[? [=]]]]
                   |(c0 & c' & ns & _ & _ & _ & _ & [[= ->]|[? [=]]])];
      [done|].
    simpl. apply Forall_app. split; [done|]. by repeat constructor.
Qed.

Lemma query_page_NoDup (d : gmap string Complaint) : NoDup (query_page d).*1.
Proof.
  unfold query_page.
  eapply sublist_NoDup; [|apply fmap_sublist, sublist_take].
  rewrite merge_sort_Permutation.
  apply (sublist_NoDup _ ((map_to_list d).*1)); [apply NoDup_fst_map_to_list|].
  apply fmap_sublist, sublist_filter.
Qed.

Lemma runQuery_inv s r s' :
  runQuery E s = (r, s') →
  s' = log_op OpQuery s ∧ (r = Ok (query_page (docs s)) ∨ ∃ e, r = Throw e).
Proof.
  unfold runQuery, bind.
  destruct (call E OpQuery s) as [[[]|e] s1] eqn:Hc;
    apply call_inv in Hc as [-> _]; intros [= <- <-]; eauto.
Qed.

Lemma overdue_ids_NoDup now d : NoDup (overdue_ids now d).
Proof.
  unfold overdue_ids.
  eapply sublist_NoDup; [apply query_page_NoDup|].
  apply fmap_sublist, sublist_filter.
Qed.

(** [tick_body] is the query followed by the loop over the overdue ids. *)
Lemma tick_body_inv now s r s' :
  tick_body E now s = (r, s') →
  (s' = log_op OpQuery s ∧ ∃ e, r = Throw e)
  ∨ ∃ ra,
      scan_loop E now (overdue_ids now (docs s)) ([], []) (log_op OpQuery s)
        = (ra, s') ∧
      match ra with
      | Ok acc => r = Ok ({| scanned := length (query_page (docs s));
                             escalated := length (acc.1);
                             updatedIds := acc.1 |}, acc.2)
      | Throw e => r = Throw e
      end.
Proof.
  unfold tick_body, bind at 1.
  destruct (runQuery E s) as [[snap|e] s0] eqn:Hq;
    apply runQuery_inv in Hq as [-> Hr].
  - destruct Hr as [[= ->]|[? [=]]]. unfold bind.
    fold (overdue_ids now (docs s)).
    destruct (scan_loop _ _ _ _ _) as [[acc|e] s1] eqn:Hl;
      intros [= <- <-]; right; eexists; (split; [reflexivity|]); done.
  - intros [= <- <-]. left. eauto.
Qed.

(** What a cycle does to the store: every document is untouched or has
    gone through one committed transition; and the flag is down again
    afterwards when it was down before. *)
Lemma tick_docs now s r s' k :
  tick E now s = (r, s') →
  docs s' !! k = docs s !! k
  ∨ ∃ c c', docs s !! k = Some c ∧ docs s' !! k = Some c' ∧
            committed E now c c'.
Proof.
  unfold tick, try_finally. destruct (running s); [intros [= <- <-]; by left|].
  destruct (tick_body E now (set_running true s)) as [r0 s0] eqn:Hb.
  simpl. intros [= <- <-]. simpl.
  apply tick_body_inv in Hb as [[-> _]|(ra & Hl & _)]; [by left|].
  eapply (scan_loop_spec _ _ _ _ _ _ k) in Hl; [|apply overdue_ids_NoDup].
  simpl in Hl. destruct Hl as [Hl|[_ Hl]]; [by left|by right].
Qed.

(** No step of the [try] block touches the flag. *)
Lemma tick_body_running now s :
  running (tick_body E now s).2 = running s.
Proof.
  destruct (tick_body E now s) as [r s'] eqn:Hb. simpl.
  apply tick_body_inv in Hb as [[-> _]|(ra & Hl & _)]; [done|].
  by apply scan_loop_running in Hl.
Qed.

Lemma tick_frame now s r s' k c :
  tick E now s = (r, s') →
  docs s !! k = Some c →
  (∀ c', ¬ committed E now c c') →
  docs s' !! k = Some c.
Proof.
  intros Ht Hk Hno.
  destruct (tick_docs _ _ _ _ k Ht) as [->|(c0 & c' & Hc0 & _ & Hcm)]; [done|].
  rewrite Hk in Hc0. injection Hc0 as <-. by destruct (Hno c').
Qed.

End Cycle.

(** ** The enricher *)

Section Enricher.

Variable E : Env.

(** One item of the enricher writes nothing but timeline events of its own
    complaint. *)
Lemma explain_one_frame esc s r s' k :
  explain_one E esc s = (r, s') →
  running s' = running s ∧
  (k ≠ esc_id esc → docs s' !! k = docs s !! k).
Proof.
  unfold explain_one, try_catch, bind, explainEscalation.
  fold (request_of esc).
  assert (∀ ev s0 r0 s1,
            appendTimelineEvent E (esc_id esc) ev s0 = (r0, s1) →
            running s1 = running s0 ∧
            (k ≠ esc_id esc → docs s1 !! k = docs s0 !! k)) as Happ.
  { intros ev s0 r0 s1 (Hr & _ & [(_ & _ & ->)|(_ & ->)])%appendTimelineEvent_inv;
      split; auto. intros Hne. by rewrite lookup_alter_ne. }
  destruct (advise E (trace s) (request_of esc)) as [|o].
  - intros Ha%Happ. done.
  - destruct (appendTimelineEvent _ _ _ _) as [[[]|e] s1] eqn:H1;
      apply Happ in H1 as [Hr1 Hd1].
    + intros [= <- <-]. done.
    + intros [Hr2 Hd2]%Happ. simpl in *. split; [congruence|].
      intros Hne. rewrite Hd2, Hd1; done.
Qed.

Lemma addEscalationExplanations_frame escs s r s' k :
  addEscalationExplanations E escs s = (r, s') →
  Forall (λ esc, esc_id esc ≠ k) escs →
  running s' = running s ∧ docs s' !! k = docs s !! k.
Proof.
  revert s. induction escs as [|esc escs IH]; intros s; simpl.
  - by intros [= <- <-].
  - unfold bind. intros Hrun Hall. inversion_clear Hall as [|?? Hesc Hescs].
    destruct (explain_one E esc s) as [[[]|e] s1] eqn:H1;
      apply (explain_one_frame _ _ _ _ k) in H1 as [Hr1 Hd1].
    + destruct (IH _ Hrun Hescs) as [Hr Hd]. split; [congruence|].
      rewrite Hd. auto.
    + injection Hrun as <- <-. auto.
Qed.

(** The records a loop pushes never name a complaint that admits no
    transition. *)
Lemma scan_loop_escalation_ids now ids acc s acc' s' k c :
  scan_loop E now ids acc s = (Ok acc', s') →
  docs s !! k = Some c →
  (∀ c', ¬ committed E now c c') →
  Forall (λ esc, esc_id esc ≠ k) (acc.2) →
  Forall (λ esc, esc_id esc ≠ k) (acc'.2).
Proof.
  intros Hl Hk Hno. revert acc s Hl Hk.
  induction ids as [|id ids IH]; intros acc s; simpl.
  - by intros [= <- <-].
  - unfold bind. destruct (process_one E now id acc s) as [[acc1|e] s1] eqn:Hp;
      [|done].
    apply process_one_spec in Hp as [_ Hp]. intros Hl Hk Hacc.
    destruct Hp as [[Hd [[= ->]|[? [=]]]]
                   |(c0 & c' & ns & Hc0 & Hcm & _ & Hd & [[= ->]|[? [=]]])].
    + eapply IH; [done| |done]. by rewrite Hd.
    + assert (id ≠ k) as Hne.
      { intros ->. rewrite Hk in Hc0. injection Hc0 as <-. by destruct (Hno c'). }
      eapply IH; [done| |].
      * by rewrite Hd, lookup_insert_ne.
      * simpl. apply Forall_app. split; [done|]. by repeat constructor.
Qed.

Lemma tick_escalation_ids now s res escs s' k c :
  tick E now s = (Ok (res, escs), s') →
  docs s !! k = Some c →
  (∀ c', ¬ committed E now c c') →
  Forall (λ esc, esc_id esc ≠ k) escs.
Proof.
  unfold tick, try_finally.
  destruct (running s); [intros [= <- <- <-]; constructor|].
  destruct (tick_body E now (set_running true s)) as [r0 s0] eqn:Hb.
  simpl. intros [= -> <-] Hk Hno.
  apply tick_body_inv in Hb as [[_ [? [=]]]|(ra & Hl & Hra)].
  destruct ra as [acc|e]; [|done]. injection Hra as _ ->.
  eapply scan_loop_escalation_ids; [done|done|done|constructor].
Qed.

Lemma tick_running now s r s' :
  tick E now s = (r, s') → running s' = running s.
Proof.
  unfold tick, try_finally. destruct (running s) eqn:Hr.
  - by intros [= <- <-].
  - intros [= <- <-]. done.
Qed.

Lemma cycle_frame now s k c :
  docs s !! k = Some c →
  (∀ c', ¬ committed E now c c') →
  docs (cycle E now s) !! k = Some c.
Proof.
  intros Hk Hno. unfold cycle.
  destruct (tick E now s) as [[[res escs]|e] s1] eqn:Ht.
  - pose proof (tick_frame _ _ _ _ _ _ _ Ht Hk Hno) as Hk1.
    pose proof (tick_escalation_ids _ _ _ _ _ _ _ Ht Hk Hno) as Hids.
    destruct (addEscalationExplanations E escs s1) as [r2 s2] eqn:Ha.
    apply (addEscalationExplanations_frame _ _ _ _ k) in Ha as [_ Hd]; [|done].
    simpl. by rewrite Hd.
  - by eapply tick_frame.
Qed.

End Enricher.

(** * The scenarios of the specification *)

Module Scenarios.

Import Fixtures.

(** Scenario A: the first breach gives a warning at level 1, a deadline
    one extension after [now] and one timeline entry. *)
Example scenario_A :
  (tick envA 11000 sysA).1
  = Ok ({| scanned := 1; escalated := 1; updatedIds := ["c1"%string] |},
        [escalation_of 11000 "c1" beforeA "sla_warning"]) ∧
  status afterA = "sla_warning"%string ∧
  escalationLevel afterA = Some 1 ∧
  slaDeadline afterA = Some 21000 ∧
  map ev_action (timeline afterA) = ["sla_warning"%string].
Proof. vm_compute. repeat split; reflexivity. Qed.

(** Scenarios B and C: the second breach escalates to level 2, and a third
    cycle changes nothing. *)
Example scenario_B_C :
  let s2 := (tick envA 22000 (tick envA 11000 sysA).2).2 in
  (λ c, (status c, escalationLevel c)) <$> docs s2 !! "c1"%string
  = Some ("escalated"%string, Some 2) ∧
  docs (tick envA 99000 s2).2 = docs s2.
Proof. vm_compute. split; reflexivity. Qed.

(** Scenario D: a resolved complaint that is overdue is not even fetched. *)
Example scenario_D :
  let s := store [("c1"%string, complaint "resolved" (Some 1) 0 0 (Some 10000))] in
  tick envA 11000 s
  = (Ok ({| scanned := 0; escalated := 0; updatedIds := [] |}, []),
     log_op OpQuery s).
Proof. vm_compute. reflexivity. Qed.

(** With the variable unset the timer runs at the production interval while
    the extension is ten seconds. *)
Example unset_variable_interval_and_extension :
  WATCHDOG_INTERVAL_MS None = 60000 ∧ extensionMs None = 10000 ∧
  WATCHDOG_INTERVAL_MS (Some (Num 10)) = 1000 ∧
  extensionMs (Some (Num 0)) = 86400000.
Proof. repeat split; reflexivity. Qed.

End Scenarios.

(** * The claims *)

Module Claims.

Import Fixtures.

(** C1: the only (status, level) edges a cycle produces.  Whatever a cycle
    does (it may also stop on an error half-way), a document afterwards is
    the document before, or it went from submitted, analyzed or in_progress
    to sla_warning at level 1, or from sla_warning to escalated at level 2;
    and a document in any other status is left exactly as it was. *)
Theorem tick_only_watchdog_edges E now s r s' k c c' :
  tick E now s = (r, s') →
  docs s !! k = Some c →
  docs s' !! k = Some c' →
  (c' = c
   ∨ (status c ∈ ["submitted"; "analyzed"; "in_progress"]%string ∧
      status c' = "sla_warning"%string ∧ escalationLevel c' = Some 1)
   ∨ (status c = "sla_warning"%string ∧
      status c' = "escalated"%string ∧ escalationLevel c' = Some 2))
  ∧ (status c ∉ ["submitted"; "analyzed"; "in_progress"; "sla_warning"]%string →
     c' = c).
Proof.
  intros Ht Hk Hk'.
  destruct (tick_docs _ _ _ _ _ k Ht) as [Heq|(c0 & c0' & Hc0 & Hc0' & Hcm)].
  - assert (c' = c) by congruence. split; auto.
  - assert (c0 = c) as -> by congruence.
    assert (c0' = c') as -> by congruence.
    split.
    + right. apply committed_edge in Hcm. exact Hcm.
    + intros Hnot. apply transition_None in Hnot.
      destruct Hcm as (ns & nl & msg & d & Htr & _). congruence.
Qed.

Lemma tick_only_watchdog_edges_witness :
  docs sysA !! "c1"%string = Some beforeA ∧
  docs (tick envA 11000 sysA).2 !! "c1"%string = Some afterA ∧
  (afterA = beforeA
   ∨ (status beforeA ∈ ["submitted"; "analyzed"; "in_progress"]%string ∧
      status afterA = "sla_warning"%string ∧ escalationLevel afterA = Some 1)
   ∨ (status beforeA = "sla_warning"%string ∧
      status afterA = "escalated"%string ∧ escalationLevel afterA = Some 2)).
Proof.
  split; [reflexivity|]. split; [vm_compute; reflexivity|].
  apply (tick_only_watchdog_edges envA 11000 sysA
           (tick envA 11000 sysA).1 (tick envA 11000 sysA).2 "c1" beforeA afterA).
  - apply surjective_pairing.
  - reflexivity.
  - vm_compute; reflexivity.
Defined.

(** C2: resolved and escalated are fixed points of the watchdog.  A
    complaint whose status is resolved or escalated is, after any number of
    cycles, the very same document: status, level, deadlines, timeline and
    audit log.  This holds for the cycles alone and for the cycles each
    followed by its enricher, whatever fails on the way. *)
Theorem terminal_status_fixed_point E nows s k c :
  docs s !! k = Some c →
  status c = "resolved"%string ∨ status c = "escalated"%string →
  docs (ticks E nows s) !! k = Some c ∧ docs (cycles E nows s) !! k = Some c.
Proof.
  intros Hk Hst.
  assert (∀ now c', ¬ committed E now c c') as Hno.
  { intros now c' [Hr He]%committed_not_terminal. tauto. }
  split.
  - revert s Hk. induction nows as [|now nows IH]; intros s Hk; simpl; [done|].
    apply IH. destruct (tick E now s) as [r s1] eqn:Ht. simpl.
    by eapply tick_frame.
  - revert s Hk. induction nows as [|now nows IH]; intros s Hk; simpl; [done|].
    apply IH. by apply cycle_frame.
Qed.

Lemma terminal_status_fixed_point_witness :
  docs (store [("c1"%string, escalatedB)]) !! "c1"%string = Some escalatedB ∧
  (status escalatedB = "resolved"%string ∨ status escalatedB = "escalated"%string) ∧
  docs (ticks envA [11000; 50000; 90000] (store [("c1"%string, escalatedB)]))
    !! "c1"%string = Some escalatedB ∧
  docs (cycles envA [11000; 50000; 90000] (store [("c1"%string, escalatedB)]))
    !! "c1"%string = Some escalatedB.
Proof.
  split; [reflexivity|]. split; [right; reflexivity|].
  apply (terminal_status_fixed_point envA [11000; 50000; 90000]
           (store [("c1"%string, escalatedB)]) "c1" escalatedB).
  - reflexivity.
  - right; reflexivity.
Defined.

(** C3, as the claim states it, fails: with the environment variable unset
    a committed transition moves the deadline ten seconds past [now], not
    twenty-four hours. *)
Lemma unset_window_extends_ten_seconds :
  DEMO_SLA_SECONDS envA = None ∧
  status afterA ≠ status beforeA ∧
  docs (tick envA 11000 sysA).2 !! "c1"%string = Some afterA ∧
  slaDeadline afterA = Some (11000 + 10 * 1000) ∧
  slaDeadline afterA ≠ Some (11000 + 24 * 60 * 60 * 1000).
Proof. vm_compute. repeat split; congruence. Qed.

(** C3, amended: the deadline written by a cycle.  The configured value
    is an integer or not a number, and [now] plus the extension is a time
    a Firestore timestamp can hold.  Then a document the cycle has changed
    carries [now] plus the extension, a valid date, in both [slaDeadline]
    and [expectedResolutionTime]; the extension is the configured seconds
    times 1000 when the configured number is positive, ten seconds when
    the variable is unset, and twenty-four hours when the configured value
    is zero, negative or not a number. *)
Theorem tick_deadline_extension E now s r s' k c c' :
  tick E now s = (r, s') →
  docs s !! k = Some c →
  docs s' !! k = Some c' →
  c' ≠ c →
  let extension :=
    match DEMO_SLA_SECONDS E with
    | None => 10 * 1000
    | Some (Num z) => if 0 <? z then z * 1000 else 24 * 60 * 60 * 1000
    | Some NaN => 24 * 60 * 60 * 1000
    end in
  -62135596800 <= (now + extension) `div` 1000 <= 253402300799 →
  newDate (Num (now + extension)) = DateAt (now + extension) ∧
  Timestamp_fromDate (newDate (Num (now + extension))) = Some (now + extension) ∧
  slaDeadline c' = Some (now + extension) ∧
  expectedResolutionTime c' = Some (now + extension).
Proof.
  intros Ht Hk Hk' Hne extension Hrange.
  pose proof (Timestamp_fromDate_in_range _ Hrange) as Hts.
  split; [by apply newDate_in_range|]. split; [exact Hts|].
  destruct (tick_docs _ _ _ _ _ k Ht) as [Heq|(c0 & c0' & Hc0 & Hc0' & Hcm)];
    [congruence|].
  assert (c0' = c') as -> by congruence.
  apply committed_deadline in Hcm as (Hs & He & _).
  unfold extensionMs, env_number in Hs, He. unfold extension.
  destruct (DEMO_SLA_SECONDS E) as [[|z]|]; simpl; auto.
Qed.

Lemma tick_deadline_extension_witness :
  docs sysA !! "c1"%string = Some beforeA ∧
  docs (tick envA 11000 sysA).2 !! "c1"%string = Some afterA ∧
  afterA ≠ beforeA ∧
  -62135596800 <= (11000 + 10 * 1000) `div` 1000 <= 253402300799 ∧
  newDate (Num (11000 + 10 * 1000)) = DateAt (11000 + 10 * 1000) ∧
  Timestamp_fromDate (newDate (Num (11000 + 10 * 1000)))
  = Some (11000 + 10 * 1000) ∧
  slaDeadline afterA = Some (11000 + 10 * 1000) ∧
  expectedResolutionTime afterA = Some (11000 + 10 * 1000).
Proof.
  split; [reflexivity|]. split; [vm_compute; reflexivity|].
  split; [discriminate|].
  assert (-62135596800 <= (11000 + 10 * 1000) `div` 1000 <= 253402300799)
    as Hrange by (vm_compute; split; discriminate).
  split; [exact Hrange|].
  apply (tick_deadline_extension envA 11000 sysA
           (tick envA 11000 sysA).1 (tick envA 11000 sysA).2 "c1" beforeA afterA).
  - apply surjective_pairing.
  - reflexivity.
  - vm_compute; reflexivity.
  - discriminate.
  - exact Hrange.
Defined.

(** Past the range of a timestamp the turn rejects before the audit call:
    here the configured window puts the new deadline beyond the year 9999. *)
Example deadline_beyond_timestamp_range :
  let E := quiet (Some (Num 10000000000000)) (Returned None) in
  (tick E 11000 sysA).1 = Throw TimestampError ∧
  trace (tick E 11000 sysA).2
  = [OpQuery; OpGet "c1"; OpUpdate "c1"; OpTimeline "c1"]%string.
Proof. vm_compute. split; reflexivity. Qed.

(** ** Errors inside the loop, breach determination, the guard *)

(** C4, as the claim states it, fails: both complaints are overdue and the
    audit append of the first one rejects; the cycle rejects with that
    error, the second complaint is never fetched and keeps its status,
    although a cycle without the failure moves it to sla_warning. *)
Lemma audit_failure_aborts_cycle :
  overdue_ids 11000 (docs sysTwo) = ["c1"; "c2"]%string ∧
  (tick envFail 11000 sysTwo).1 = Throw (StoreError (OpAudit "c1")) ∧
  trace (tick envFail 11000 sysTwo).2
    = [OpQuery; OpGet "c1"; OpUpdate "c1"; OpTimeline "c1"; OpAudit "c1"]%string ∧
  docs (tick envFail 11000 sysTwo).2 !! "c2"%string = Some secondC ∧
  status <$> docs (tick envOk 11000 sysTwo).2 !! "c2"%string
    = Some "sla_warning"%string.
Proof. vm_compute. repeat split; reflexivity. Qed.

Lemma scan_loop_app E now pre post acc s :
  scan_loop E now (pre ++ post) acc s
  = (let* acc' := scan_loop E now pre acc in scan_loop E now post acc') s.
Proof.
  revert acc s. induction pre as [|id pre IH]; intros acc s; simpl.
  - done.
  - unfold bind.
    destruct (process_one E now id acc s) as [[acc1|e] s1]; [|done].
    rewrite IH. done.
Qed.

(** A cycle that starts with the flag down and whose query goes through
    is the loop over the overdue ids, and then the flag is reset. *)
Lemma tick_unfold E now s :
  running s = false →
  fails E (trace s) OpQuery = false →
  tick E now s
  = let (ra, s1) := scan_loop E now (overdue_ids now (docs s)) ([], [])
                      (log_op OpQuery (set_running true s)) in
    (match ra with
     | Ok acc => Ok ({| scanned := length (query_page (docs s));
                        escalated := length (acc.1);
                        updatedIds := acc.1 |}, acc.2)
     | Throw e => Throw e
     end, set_running false s1).
Proof.
  intros Hrun Hq.
  unfold tick, try_finally, tick_body, runQuery, bind, call.
  rewrite Hrun. simpl. rewrite Hq. simpl. unfold overdue_ids.
  destruct (scan_loop _ _ _ _ _) as [[acc|e] s1]; reflexivity.
Qed.

(** C4, amended: an error while processing one overdue complaint ends the
    cycle there.  When the loop has gone through [pre] and the turn for
    [id] throws [e] in state [s2], [tick] rejects with [e] and leaves
    exactly [s2] with the flag reset: the writes made so far stay and no
    call is made for the complaints in [rest]. *)
Theorem failed_item_ends_cycle E now s pre id rest acc1 s1 e s2 :
  running s = false →
  fails E (trace s) OpQuery = false →
  overdue_ids now (docs s) = pre ++ id :: rest →
  scan_loop E now pre ([], []) (log_op OpQuery (set_running true s))
    = (Ok acc1, s1) →
  process_one E now id acc1 s1 = (Throw e, s2) →
  tick E now s = (Throw e, set_running false s2).
Proof.
  intros Hrun Hq Hids Hpre Hid.
  rewrite tick_unfold by done. rewrite Hids, scan_loop_app.
  unfold bind at 1. rewrite Hpre. simpl. unfold bind. rewrite Hid. done.
Qed.

Lemma failed_item_ends_cycle_witness :
  running sysTwo = false ∧
  fails envFail (trace sysTwo) OpQuery = false ∧
  overdue_ids 11000 (docs sysTwo) = [] ++ "c1"%string :: ["c2"%string] ∧
  tick envFail 11000 sysTwo
  = (Throw (StoreError (OpAudit "c1")),
     set_running false
       (process_one envFail 11000 "c1" ([], [])
          (log_op OpQuery (set_running true sysTwo))).2).
Proof.
  split; [reflexivity|]. split; [reflexivity|].
  split; [vm_compute; reflexivity|].
  apply (failed_item_ends_cycle envFail 11000 sysTwo [] "c1" ["c2"%string]
           ([], []) (log_op OpQuery (set_running true sysTwo))).
  - reflexivity.
  - reflexivity.
  - vm_compute; reflexivity.
  - reflexivity.
  - vm_compute; reflexivity.
Defined.

(** C5: breach determination and the re-check before the commit.  The
    effective deadline is [slaDeadline] when present and
    [expectedResolutionTime] otherwise; the filter keeps a document exactly
    when [now] is strictly greater than that deadline; the loop visits
    exactly the documents of the page the filter keeps; and a turn of the
    loop whose re-fetched document has a deadline that is not strictly in
    the past makes the re-fetch and nothing else: no write, the accumulator
    as it was. *)
Theorem overdue_strict_and_rechecked E now c0 d0 id0 id acc s c d r s' :
  docs s !! id = Some c →
  getDeadline c = Some d →
  now <= d →
  process_one E now id acc s = (r, s') →
  getDeadline c0 = match slaDeadline c0 with
                   | Some x => Some x
                   | None => expectedResolutionTime c0
                   end ∧
  (isOverdue now c0 = true ↔ ∃ x, getDeadline c0 = Some x ∧ now > x) ∧
  (id0 ∈ overdue_ids now d0 ↔
   ∃ c1, (id0, c1) ∈ query_page d0 ∧ isOverdue now c1 = true) ∧
  s' = log_op (OpGet id) s ∧
  docs s' = docs s ∧
  (r = Ok acc ∨ r = Throw (StoreError (OpGet id))).
Proof.
  intros Hc Hd Hle Hp. split; [reflexivity|]. split; [|split].
  - unfold isOverdue. fold (getDeadline c0).
    destruct (getDeadline c0) as [x|].
    + rewrite Z.ltb_lt. split.
      * intros Hlt. exists x. split; [done|lia].
      * intros (y & [= <-] & Hy). lia.
    + split; [done|]. intros (y & [=] & _).
  - unfold overdue_ids. rewrite list_elem_of_fmap. split.
    + intros ([k c1] & -> & [Ho Hin]%list_elem_of_filter). eauto.
    + intros (c1 & Hin & Ho). exists (id0, c1). split; [done|].
      apply list_elem_of_filter. done.
  - revert Hp. unfold process_one, bind, getComplaint, bind, call.
    destruct (fails E (trace s) (OpGet id)).
    + intros [= <- <-]. auto.
    + simpl. rewrite Hc.
      destruct (_ || _)%bool; [intros [= <- <-]; auto|].
      rewrite Hd. destruct (Z.leb_spec now d) as [_|Hlt]; [|lia].
      intros [= <- <-]. auto.
Qed.

Lemma overdue_strict_and_rechecked_witness :
  docs (store [("c1"%string, notYetDue)]) !! "c1"%string = Some notYetDue ∧
  getDeadline notYetDue = Some 11000 ∧
  11000 <= 11000 ∧
  (process_one envA 11000 "c1" ([], []) (store [("c1"%string, notYetDue)])).2
  = log_op (OpGet "c1") (store [("c1"%string, notYetDue)]) ∧
  (process_one envA 11000 "c1" ([], []) (store [("c1"%string, notYetDue)])).1
  = Ok ([], []).
Proof.
  split; [reflexivity|]. split; [reflexivity|]. split; [lia|].
  destruct (overdue_strict_and_rechecked envA 11000 notYetDue ∅ "c1" "c1"
              ([], []) (store [("c1"%string, notYetDue)]) notYetDue 11000
              (process_one envA 11000 "c1" ([], [])
                 (store [("c1"%string, notYetDue)])).1
              (process_one envA 11000 "c1" ([], [])
                 (store [("c1"%string, notYetDue)])).2)
    as (_ & _ & _ & Hs & _ & _).
  - reflexivity.
  - reflexivity.
  - lia.
  - apply surjective_pairing.
  - split; [exact Hs|]. vm_compute; reflexivity.
Defined.

(** C6: the re-entrancy guard.  Called while the flag is up, [tick]
    returns zeros and leaves the whole state as it was, the log of calls
    included: no call is made.  Called while the flag is down, [tick]
    leaves the flag down, whether it resolves or rejects; and the flag is
    still up when the [try] block of such a call ends, so it is the
    [finally] block that takes it down. *)
Theorem tick_reentrancy_guard E now s :
  tick E now (set_running true s)
  = (Ok ({| scanned := 0; escalated := 0; updatedIds := [] |}, []),
     set_running true s) ∧
  running (tick E now (set_running false s)).2 = false ∧
  running (tick_body E now (set_running true s)).2 = true ∧
  tick E now (set_running false s)
  = ((tick_body E now (set_running true s)).1,
     set_running false (tick_body E now (set_running true s)).2).
Proof.
  split; [reflexivity|]. split; [reflexivity|].
  split; [apply tick_body_running|reflexivity].
Qed.

(** A cycle whose bulk query rejects: it rejects, and the flag is down. *)
Example failed_query_resets_flag :
  let E := faulty None (λ op, match op with OpQuery => true | _ => false end) in
  tick E 11000 sysA = (Throw (StoreError OpQuery),
                       {| running := false; docs := docs sysA;
                          trace := [OpQuery] |}).
Proof. reflexivity. Qed.

(** ** The enricher on one escalation *)

(** C7, as the claim states it, fails: when the advisory call returns
    nothing, the event appended carries the action
    [ai_escalation_justification], the very action of an entry built from a
    justification the service did return. *)
Lemma empty_advice_keeps_success_action :
  timeline <$> docs (explain_one (quiet None (Returned None)) escA sysW).2
                 !! "c1"%string
  = Some [{| ev_type := "system";
             ev_action := "ai_escalation_justification";
             ev_message := "System escalation enforced due to SLA breach.";
             ev_timestamp := 99000 |}] ∧
  timeline <$> docs (explain_one (quiet None (Returned (Some "Overdue"%string)))
                       escA sysW).2 !! "c1"%string
  = Some [{| ev_type := "system";
             ev_action := "ai_escalation_justification";
             ev_message := "AI justification: Overdue";
             ev_timestamp := 99000 |}].
Proof. vm_compute. split; reflexivity. Qed.

(** C7, amended: what the enricher appends for one item, when the complaint
    exists and the timeline append that follows the advisory call goes
    through.  Exactly one event is appended to the timeline of the
    complaint and nothing else changes.  When the advisory call throws, the
    event has the fixed message ending in "AI justification unavailable."
    and the action [ai_escalation_justification_failed]; when it returns
    nothing or an empty text, the event has the fixed message "System
    escalation enforced due to SLA breach." under the action
    [ai_escalation_justification], which is also the action of an entry
    built from a returned justification. *)
Theorem advisory_failure_fallback E esc s c :
  let rq := request_of esc in
  let appended action message :=
    <[esc_id esc :=
        push_timeline {| ev_type := "system";
                         ev_action := action;
                         ev_message := message;
                         ev_timestamp := clock E (trace s ++ [OpExplain rq]) |} c]>
      (docs s) in
  docs s !! esc_id esc = Some c →
  fails E (trace s ++ [OpExplain rq]) (OpTimeline (esc_id esc)) = false →
  (explain_one E esc s).1 = Ok tt ∧
  docs (explain_one E esc s).2
  = match advise E (trace s) rq with
    | Threw =>
        appended "ai_escalation_justification_failed"%string
          "System escalation enforced due to SLA breach. AI justification unavailable."%string
    | Returned (Some (String a j)) =>
        appended "ai_escalation_justification"%string
                 ("AI justification: " +:+ String a j)
    | Returned _ =>
        appended "ai_escalation_justification"%string
                 "System escalation enforced due to SLA breach."%string
    end.
Proof.
  intros rq appended Hc Hf.
  assert (∀ ev, alter (push_timeline ev) (esc_id esc) (docs s)
                = <[esc_id esc := push_timeline ev c]> (docs s)) as Halt.
  { intros ev. apply map_eq. intros j.
    destruct (decide (esc_id esc = j)) as [<-|Hne].
    - by rewrite lookup_alter_eq, lookup_insert_eq, Hc.
    - by rewrite lookup_alter_ne, lookup_insert_ne. }
  unfold explain_one, try_catch, bind, explainEscalation.
  fold (request_of esc). fold rq.
  destruct (advise E (trace s) rq) as [|[[|a j]|]];
    unfold appendTimelineEvent, bind, call, modify_docs; simpl;
    rewrite Hf; simpl; rewrite Halt; done.
Qed.

Lemma advisory_failure_fallback_witness :
  docs sysW !! esc_id escA = Some warnedC ∧
  fails (quiet None Threw) (trace sysW ++ [OpExplain (request_of escA)])
        (OpTimeline (esc_id escA)) = false ∧
  (explain_one (quiet None Threw) escA sysW).1 = Ok tt ∧
  docs (explain_one (quiet None Threw) escA sysW).2
  = <["c1"%string :=
        push_timeline
          {| ev_type := "system";
             ev_action := "ai_escalation_justification_failed";
             ev_message := "System escalation enforced due to SLA breach. AI justification unavailable.";
             ev_timestamp := 99000 |} warnedC]> (docs sysW).
Proof.
  split; [reflexivity|]. split; [reflexivity|].
  apply (advisory_failure_fallback (quiet None Threw) escA sysW warnedC);
    reflexivity.
Defined.

(** ** The escalation level *)

(** C8 at a failing input: a complaint at level 2 whose status went back to
    in_progress is overdue; the cycle writes level 1 over level 2, and says
    so in the audit entry. *)
Lemma reopened_complaint_level_drops :
  escalationLevel reopenedC = Some 2 ∧
  escalationLevel <$> docs (tick envA 11000 (store [("c1"%string, reopenedC)])).2
                        !! "c1"%string
  = Some (Some 1) ∧
  map (λ a, (au_prevLevel a, au_newLevel a))
    <$> (auditLog <$> docs (tick envA 11000 (store [("c1"%string, reopenedC)])).2
                        !! "c1"%string)
  = Some [(2, 1)].
Proof. vm_compute. repeat split; reflexivity. Qed.

(** The level does not go down in a cycle when, before it, the level is at
    most the one the status leads to. *)
Lemma tick_level_monotone_when_correlated E now s r s' k c c' :
  tick E now s = (r, s') →
  docs s !! k = Some c →
  docs s' !! k = Some c' →
  (status c ∈ ["submitted"; "analyzed"; "in_progress"]%string →
   default 0 (escalationLevel c) <= 1) →
  (status c = "sla_warning"%string → default 0 (escalationLevel c) <= 2) →
  default 0 (escalationLevel c) <= default 0 (escalationLevel c').
Proof.
  intros Ht Hk Hk' H1 H2.
  destruct (tick_docs _ _ _ _ _ k Ht) as [Heq|(c0 & c0' & Hc0 & Hc0' & Hcm)].
  - assert (c' = c) as -> by congruence. lia.
  - assert (c0 = c) as -> by congruence.
    assert (c0' = c') as -> by congruence.
    apply committed_edge in Hcm.
    destruct Hcm as [(Hin & _ & ->)|(Hs & _ & ->)]; simpl; auto.
Qed.

(** ** The bulk query *)

#[local] Instance updated_desc_total : Total updated_desc.
Proof. intros x y. unfold updated_desc. lia. Qed.

#[local] Instance updated_desc_trans : Transitive updated_desc.
Proof. intros x y z. unfold updated_desc. lia. Qed.

Lemma StronglySorted_take {A} (R : relation A) (l : list A) (n : nat) :
  StronglySorted R l → StronglySorted R (take n l).
Proof.
  intros Hl. revert n. induction Hl as [|x l Hl IH Hx]; intros [|n]; simpl;
    try constructor.
  - apply IH.
  - eapply Forall_forall. intros y Hy%subseteq_take.
    by eapply Forall_forall in Hx.
Qed.

(** C9, as the claim states it, fails: escalated is a status of the query's
    set, so a complaint that is escalated, for which the watchdog has no
    transition and which the loop skips, is fetched by the bulk query. *)
Lemma query_fetches_escalated :
  status escalatedB = "escalated"%string ∧
  transition (status escalatedB) = None ∧
  query_page (docs (store [("c1"%string, escalatedB)]))
  = [("c1"%string, escalatedB)].
Proof. vm_compute. repeat split; reflexivity. Qed.

(** C9, amended: the page of the bulk query.  Every fetched entry is a
    document of the collection whose status is one of the eight statuses of
    [ACTIVE_STATUSES] and hence not resolved; the entries come most
    recently updated first, without repetition, at most 250 of them, and
    that page is what the query of a cycle returns unless it rejects.  The
    page is the most recent part of all those documents: it has as many
    entries as there are documents in an active status, up to 250, and a
    document in an active status is on it unless the page is full of
    documents updated at least as recently.  Escalated, assigned,
    acknowledged and on_hold are among the active statuses, so such
    complaints are fetched by that rule although the watchdog has no
    transition for them. *)
Theorem query_page_active_sorted_bounded E s :
  Forall (λ kc, docs s !! kc.1 = Some (kc.2) ∧
                status (kc.2) ∈ ["submitted"; "analyzed"; "assigned";
                                 "acknowledged"; "in_progress"; "on_hold";
                                 "sla_warning"; "escalated"]%string ∧
                status (kc.2) ≠ "resolved"%string)
         (query_page (docs s)) ∧
  StronglySorted (λ x y, updatedAt (x.2) >= updatedAt (y.2)) (query_page (docs s)) ∧
  (length (query_page (docs s)) ≤ 250)%nat ∧
  ((runQuery E s).1 = Ok (query_page (docs s))
   ∨ (runQuery E s).1 = Throw (StoreError OpQuery)) ∧
  NoDup (query_page (docs s)).*1 ∧
  length (query_page (docs s))
  = Nat.min 250
      (length (filter (λ kc : string * Complaint,
                         status (kc.2) ∈ ["submitted"; "analyzed"; "assigned";
                                          "acknowledged"; "in_progress";
                                          "on_hold"; "sla_warning";
                                          "escalated"]%string)
                      (map_to_list (docs s)))) ∧
  (∀ k c,
     docs s !! k = Some c →
     status c ∈ ["submitted"; "analyzed"; "assigned"; "acknowledged";
                 "in_progress"; "on_hold"; "sla_warning"; "escalated"]%string →
     (k, c) ∈ query_page (docs s)
     ∨ (length (query_page (docs s)) = 250%nat ∧
        Forall (λ kc, updatedAt (kc.2) >= updatedAt c) (query_page (docs s)))) ∧
  (∀ st, st ∈ ["escalated"; "assigned"; "acknowledged"; "on_hold"]%string →
         st ∈ ACTIVE_STATUSES ∧ transition st = None).
Proof.
  split; [|split; [|split; [|split; [|split; [|split; [|split]]]]]].
  - apply Forall_forall. intros [k c] Hin. unfold query_page in Hin.
    apply subseteq_take in Hin. rewrite merge_sort_Permutation in Hin.
    apply list_elem_of_filter in Hin as [Hact Hin]. simpl in *.
    apply elem_of_map_to_list in Hin.
    unfold status_active in Hact. apply bool_decide_eq_true in Hact.
    split; [done|]. split; [exact Hact|].
    intros Hres. rewrite Hres in Hact. unfold ACTIVE_STATUSES in Hact.
    rewrite !elem_of_cons, elem_of_nil in Hact.
    destruct Hact as [?|[?|[?|[?|[?|[?|[?|[?|[]]]]]]]]]; discriminate.
  - unfold query_page. apply StronglySorted_take.
    apply (StronglySorted_merge_sort updated_desc).
  - unfold query_page. rewrite length_take. lia.
  - unfold runQuery, bind, call.
    destruct (fails E (trace s) OpQuery); simpl; auto.
  - apply query_page_NoDup.
  - unfold query_page. rewrite length_take, merge_sort_Permutation.
    rewrite (list_filter_iff _ (λ kc : string * Complaint,
                                  status (kc.2) ∈ ACTIVE_STATUSES));
      [reflexivity|].
    intros [k c]. cbn [snd]. unfold status_active. apply bool_decide_eq_true.
  - intros k c Hk Hact. unfold query_page.
    set (L := merge_sort updated_desc
                (filter (λ kc : string * Complaint, status_active (kc.2) = true)
                        (map_to_list (docs s)))).
    assert ((k, c) ∈ L) as Hin.
    { unfold L. rewrite merge_sort_Permutation. apply list_elem_of_filter.
      split; [|by apply elem_of_map_to_list].
      simpl. unfold status_active. by apply bool_decide_eq_true. }
    assert (StronglySorted updated_desc L) as Hsorted
      by apply (StronglySorted_merge_sort updated_desc).
    rewrite <- (take_drop 250 L) in Hin, Hsorted.
    apply elem_of_app in Hin as [Hin|Hin]; [by left|right].
    split.
    + rewrite length_take. apply Nat.min_l.
      destruct (decide (250 ≤ length L)%nat) as [Hle|Hgt]; [done|].
      rewrite drop_ge in Hin by lia. by apply elem_of_nil in Hin.
    + apply Forall_forall. intros [k' c'] Hin'.
      apply (StronglySorted_app_1_elem_of _ _ _ (k', c') (k, c) Hsorted Hin' Hin).
  - intros st Hst. rewrite !elem_of_cons, elem_of_nil in Hst.
    unfold ACTIVE_STATUSES.
    destruct Hst as [->|[->|[->|[->|[]]]]]; (split; [|reflexivity]);
      rewrite !elem_of_cons; auto 10.
Qed.

(** Two active documents: both are on the page, the one updated last
    first, the escalated one after it. *)
Example page_lists_recent_first :
  query_page (docs (store [("c1"%string, escalatedB); ("c2"%string, firstC)]))
  = [("c2"%string, firstC); ("c1"%string, escalatedB)].
Proof. vm_compute. reflexivity. Qed.

(** ** The elapsed seconds *)

(** C10: every record a cycle hands to the enricher, and so every request
    the enricher sends to the advisory service, has [elapsedSeconds] at
    least 1. *)
Theorem elapsed_seconds_at_least_one E now s res escs s' :
  tick E now s = (Ok (res, escs), s') →
  Forall (λ esc, 1 <= esc_elapsedSeconds esc ∧
                 1 <= rq_elapsedSeconds (request_of esc)) escs.
Proof.
  unfold tick, try_finally.
  destruct (running s); [intros [= <- <- <-]; constructor|].
  destruct (tick_body E now (set_running true s)) as [r0 s0] eqn:Hb.
  simpl. intros [= -> <-].
  apply tick_body_inv in Hb as [[_ [? [=]]]|(ra & Hl & Hra)].
  destruct ra as [acc|e]; [|done]. injection Hra as _ ->.
  eapply scan_loop_escalations; [|exact Hl|constructor].
  intros id c ns. simpl. unfold elapsedSeconds. lia.
Qed.

Lemma elapsed_seconds_at_least_one_witness :
  createdAt futureC > 11000 ∧
  Forall (λ esc, 1 <= esc_elapsedSeconds esc ∧
                 1 <= rq_elapsedSeconds (request_of esc))
         [escalation_of 11000 "c1" futureC "sla_warning"].
Proof.
  split; [reflexivity|].
  apply (elapsed_seconds_at_least_one envA 11000
           (store [("c1"%string, futureC)])
           {| scanned := 1; escalated := 1; updatedIds := ["c1"%string] |}
           [escalation_of 11000 "c1" futureC "sla_warning"]
           (tick envA 11000 (store [("c1"%string, futureC)])).2).
  vm_compute; reflexivity.
Defined.

End Claims.

(** * Further properties of the module and of the modules around it *)

Module Extras.

Import Fixtures MoreFixtures.

(** ** Cycles that resolve *)

Section ResolvedCycles.

Variable E : Env.

(** A turn of the loop that does not throw either skipped the complaint or
    made all three writes. *)
Lemma process_one_ok_spec now id acc s acc' s' :
  process_one E now id acc s = (Ok acc', s') →
  (acc' = acc ∧ docs s' = docs s)
  ∨ ∃ c c' d,
      docs s !! id = Some c ∧ commit_all E now c = Some c' ∧
      getDeadline c = Some d ∧ d < now ∧
      acc' = (acc.1 ++ [id], acc.2 ++ [escalation_of now id c (status c')]) ∧
      docs s' = <[id := c']> (docs s).
Proof.
  unfold process_one, bind at 1.
  destruct (getComplaint E id s) as [[oc|e] s0] eqn:Hg;
    apply getComplaint_inv in Hg as [-> Hr]; [|done].
  destruct Hr as [[= ->]|[? [=]]].
  destruct (docs s !! id) as [c|] eqn:Hc; [|intros [= <- <-]; by left].
  destruct (_ || _)%bool; [intros [= <- <-]; by left|].
  destruct (getDeadline c) as [d|] eqn:Hd; [|done].
  destruct (Z.leb_spec now d) as [Hle|Hlt]; [intros [= <- <-]; by left|].
  destruct (transition (status c)) as [[[ns nl] msg]|] eqn:Ht;
    [|intros [= <- <-]; by left].
  unfold bind.
  destruct (updateComplaintFields _ _ _ _ _ _ _) as [[[]|e] s1] eqn:H1; [|done].
  apply updateComplaintFields_inv in H1
    as (_ & _ & [(_ & _ & Hd1)|(Hk1 & _)]); [|done].
  destruct (appendTimelineEvent _ _ _ _) as [[[]|e] s2] eqn:H2; [|done].
  apply appendTimelineEvent_inv in H2
    as (_ & _ & [(_ & _ & Hd2)|(Hk2 & _)]); [|done].
  destruct (Timestamp_fromDate (newDate (Num d))) as [pt|] eqn:Hpt; [|done].
  destruct (Timestamp_fromDate
              (newDate (Num (now + extensionMs (DEMO_SLA_SECONDS E)))))
    as [nt|] eqn:Hnt; [|done].
  apply Timestamp_fromDate_Some in Hpt as [-> _].
  apply Timestamp_fromDate_Some in Hnt as [-> _].
  destruct (appendAudit _ _ _ _) as [[[]|e] s3] eqn:H3; [|done].
  apply appendAudit_inv in H3 as (_ & _ & [(_ & Hd3)|([e' Hk3] & _)]); [|done].
  intros [= <- <-]. right.
  eexists c, _, d. split; [done|]. split.
  { unfold commit_all. rewrite Ht, Hd. reflexivity. }
  split; [done|]. split; [done|]. split; [reflexivity|].
  rewrite Hd3, Hd2, Hd1. simpl. apply map_eq. intros j.
  destruct (decide (id = j)) as [<-|Hne].
  - by rewrite !lookup_alter_eq, lookup_insert_eq, Hc.
  - by rewrite !lookup_alter_ne, lookup_insert_ne.
Qed.

(** A loop over distinct ids that does not throw: the records it pushed
    name exactly the documents it changed, each of which went through all
    three writes. *)
Lemma scan_loop_ok_spec now ids acc s acc' s' :
  NoDup ids →
  scan_loop E now ids acc s = (Ok acc', s') →
  ∃ m, acc'.1 = acc.1 ++ (esc_id <$> m) ∧ acc'.2 = acc.2 ++ m ∧
       (esc_id <$> m) `sublist_of` ids ∧
       ∀ k, (k ∈ (esc_id <$> m) ∧
             ∃ c c' d, docs s !! k = Some c ∧ commit_all E now c = Some c' ∧
                       getDeadline c = Some d ∧ d < now ∧
                       docs s' !! k = Some c')
            ∨ ((k ∉ (esc_id <$> m)) ∧ docs s' !! k = docs s !! k).
Proof.
  intros Hnd. revert acc s.
  induction Hnd as [|id ids Hnotin Hnd IH]; intros acc s; simpl.
  - intros [= <- <-]. exists []. simpl. rewrite !app_nil_r.
    repeat split; [constructor|]. intros k. right. split; [|done].
    apply not_elem_of_nil.
  - unfold bind.
    destruct (process_one E now id acc s) as [[acc1|e] s1] eqn:Hp; [|done].
    intros Hl. apply IH in Hl as (m & Hm1 & Hm2 & Hsub & Hk).
    apply process_one_ok_spec in Hp
      as [[-> Hd]|(c & c' & d & Hc & Hcm & Hdl & Hlt & -> & Hd)].
    + exists m. repeat split; [done|done|by apply sublist_cons|].
      intros k. rewrite <- Hd. apply Hk.
    + exists (escalation_of now id c (status c') :: m). simpl in *.
      rewrite <- !app_assoc in Hm1, Hm2. simpl in Hm1, Hm2.
      repeat split; [done|done|by apply sublist_skip|].
      intros k. destruct (decide (k = id)) as [->|Hne].
      * left. split; [apply list_elem_of_here|].
        exists c, c', d. repeat split; try done.
        destruct (Hk id) as [[Hin _]|[_ ->]].
        -- destruct Hnotin. eapply elem_of_sublist; [exact Hin|exact Hsub].
        -- by rewrite Hd, lookup_insert_eq.
      * destruct (Hk k) as [[Hin Hex]|[Hnin Heq]].
        -- left. split; [by apply list_elem_of_further|].
           rewrite Hd, lookup_insert_ne in Hex by done. exact Hex.
        -- right. split.
           ++ rewrite not_elem_of_cons. done.
           ++ rewrite Heq, Hd, lookup_insert_ne; done.
Qed.

(** The same for a whole cycle. *)
Lemma tick_ok_spec now s res escs s' :
  tick E now s = (Ok (res, escs), s') →
  escalated res = length (updatedIds res) ∧
  updatedIds res = esc_id <$> escs ∧
  NoDup (updatedIds res) ∧
  (length (updatedIds res) ≤ scanned res ∧ scanned res ≤ 250)%nat ∧
  ∀ k, (k ∈ updatedIds res ∧
        ∃ c c' d, docs s !! k = Some c ∧ commit_all E now c = Some c' ∧
                  getDeadline c = Some d ∧ d < now ∧
                  docs s' !! k = Some c')
       ∨ ((k ∉ updatedIds res) ∧ docs s' !! k = docs s !! k).
Proof.
  unfold tick, try_finally. destruct (running s).
  { intros [= <- <- <-]. simpl.
    split; [done|]. split; [done|]. split; [constructor|]. split; [lia|].
    intros k. right. split; [apply not_elem_of_nil|done]. }
  destruct (tick_body E now (set_running true s)) as [r0 s0] eqn:Hb.
  simpl. intros [= -> <-].
  apply tick_body_inv in Hb as [[_ [? [=]]]|(ra & Hl & Hra)].
  destruct ra as [acc|e]; [|done]. injection Hra as -> ->.
  apply scan_loop_ok_spec in Hl as (m & Hm1 & Hm2 & Hsub & Hk);
    [|apply overdue_ids_NoDup].
  simpl in *. subst. simpl. rewrite Hm1.
  split; [done|]. split; [done|].
  split; [eapply sublist_NoDup; [apply overdue_ids_NoDup|exact Hsub]|].
  split; [|exact Hk].
  split.
  - apply sublist_length in Hsub. etrans; [exact Hsub|].
    unfold overdue_ids. rewrite length_fmap. apply length_filter.
  - unfold query_page. rewrite length_take. lia.
Qed.

End ResolvedCycles.

(** ** The enricher, event by event *)

Section EnricherSteps.

Variable E : Env.

(** One item of the enricher makes at most three calls; it resolves having
    appended one event to its complaint, or it rejects having written
    nothing. *)
Lemma explain_one_spec esc s r s' :
  explain_one E esc s = (r, s') →
  running s' = running s ∧
  (length (trace s') ≤ length (trace s) + 3)%nat ∧
  (((∃ e, r = Throw e) ∧ docs s' = docs s)
   ∨ (r = Ok tt ∧
      ∃ ev, enricher_event ev ∧
            docs s' = alter (push_timeline ev) (esc_id esc) (docs s))).
Proof.
  unfold explain_one, try_catch, bind, explainEscalation.
  fold (request_of esc).
  destruct (advise E (trace s) (request_of esc)) as [|o].
  - intros (Hr & Htr & Hd)%appendTimelineEvent_inv. simpl in *.
    split; [done|]. split; [rewrite Htr, !length_app; simpl; lia|].
    destruct Hd as [(-> & _ & ->)|(-> & ->)]; [right|left; eauto].
    split; [done|]. eexists. split; [|reflexivity].
    eexists. left. reflexivity.
  - destruct (appendTimelineEvent _ _ _ _) as [[[]|e] s1] eqn:H1;
      apply appendTimelineEvent_inv in H1 as (Hr1 & Htr1 & Hd1); simpl in *.
    + intros [= <- <-]. split; [done|].
      split; [rewrite Htr1, !length_app; simpl; lia|].
      destruct Hd1 as [(_ & _ & ->)|([=] & _)]. right. split; [done|].
      eexists. split; [|reflexivity]. eexists. right. exists o. reflexivity.
    + destruct Hd1 as [([=] & _)|(_ & Hd1)].
      intros (Hr2 & Htr2 & Hd2)%appendTimelineEvent_inv.
      split; [congruence|].
      split; [rewrite Htr2, Htr1, !length_app; simpl; lia|].
      rewrite Hd1 in Hd2.
      destruct Hd2 as [(-> & _ & ->)|(-> & ->)]; [right|left; eauto].
      split; [done|]. eexists. split; [|reflexivity].
      eexists. left. reflexivity.
Qed.

Lemma timeline_extended_nil c : timeline_extended c [] c.
Proof. unfold timeline_extended. rewrite app_nil_r. by destruct c. Qed.

Lemma timeline_extended_push c ev evs c' :
  timeline_extended (push_timeline ev c) evs c' →
  timeline_extended c (ev :: evs) c'.
Proof.
  unfold timeline_extended. intros ->. simpl. by rewrite <- app_assoc.
Qed.

(** The enricher on a list of escalations: a document gets nothing but
    enricher events at the end of its timeline, at most one for each
    escalation that names it. *)
Lemma addEscalationExplanations_spec escs s r s' k :
  addEscalationExplanations E escs s = (r, s') →
  match docs s !! k with
  | None => docs s' !! k = None
  | Some c =>
    ∃ evs c', docs s' !! k = Some c' ∧ timeline_extended c evs c' ∧
              Forall enricher_event evs ∧
              (length evs ≤ length (filter (λ esc, esc_id esc = k) escs))%nat
  end.
Proof.
  revert s. induction escs as [|esc escs IH]; intros s; simpl.
  - intros [= <- <-]. destruct (docs s !! k) as [c|] eqn:Hc; [|done].
    exists [], c. split; [done|]. split; [apply timeline_extended_nil|].
    split; [constructor|done].
  - unfold bind. destruct (explain_one E esc s) as [[[]|e] s1] eqn:H1;
      apply explain_one_spec in H1 as (_ & _ & H1).
    + destruct H1 as [[[? [=]] _]|(_ & ev & Hev & Hd1)].
      intros Hl. specialize (IH _ Hl). rewrite Hd1 in IH.
      rewrite filter_cons.
      destruct (decide (esc_id esc = k)) as [Heq|Hne].
      * rewrite Heq, lookup_alter_eq in IH.
        destruct (docs s !! k) as [c|]; simpl in IH; [|done].
        destruct IH as (evs & c' & Hk & Hext & Hall & Hlen).
        exists (ev :: evs), c'. split; [done|].
        split; [by apply timeline_extended_push|].
        split; [by constructor|]. simpl. lia.
      * rewrite lookup_alter_ne in IH by done. exact IH.
    + destruct H1 as [[_ Hd1]|([=] & _)]. intros [= <- <-]. rewrite Hd1.
      destruct (docs s !! k) as [c|] eqn:Hc; [|done].
      exists [], c. split; [done|]. split; [apply timeline_extended_nil|].
      split; [constructor|]. simpl. lia.
Qed.

Lemma filter_id_NoDup (escs : list Escalation) (k : string) :
  NoDup (esc_id <$> escs) →
  (length (filter (λ esc, esc_id esc = k) escs) ≤ 1)%nat ∧
  (k ∉ (esc_id <$> escs) → filter (λ esc, esc_id esc = k) escs = []).
Proof.
  induction escs as [|esc escs IH]; simpl.
  - intros _. split; [lia|done].
  - intros [Hnotin Hnd]%NoDup_cons. destruct (IH Hnd) as [IH1 IH2].
    rewrite filter_cons. destruct (decide (esc_id esc = k)) as [Heq|Hne].
    + subst k. rewrite (IH2 Hnotin). simpl. split; [lia|].
      intros Hn. destruct Hn. apply list_elem_of_here.
    + split; [done|]. intros Hn. apply IH2.
      intros Hin. destruct Hn. by apply list_elem_of_further.
Qed.

End EnricherSteps.

(** ** A cycle and its enricher, document by document *)

Lemma audit_eqb_eq (a b : AuditEntry) : audit_eqb a b = true ↔ a = b.
Proof.
  unfold audit_eqb. rewrite !andb_true_iff, !Z.eqb_eq, !String.eqb_eq.
  destruct a, b; simpl. split.
  - intros ((((((((-> & ->) & ->) & ->) & ->) & ->) & ->) & ->) & ->). done.
  - intros [= -> -> -> -> -> -> -> -> ->]. done.
Qed.

Lemma arrayUnion_spec (e : AuditEntry) (l : list AuditEntry) :
  (e ∈ l ∧ arrayUnion e l = l) ∨ ((e ∉ l) ∧ arrayUnion e l = l ++ [e]).
Proof.
  unfold arrayUnion. destruct (existsb (audit_eqb e) l) eqn:Hex.
  - left. split; [|done]. apply existsb_exists in Hex as (x & Hin & Heq).
    apply audit_eqb_eq in Heq as ->. by apply list_elem_of_In.
  - right. split; [|done]. intros Hin%list_elem_of_In.
    assert (existsb (audit_eqb e) l = true); [|congruence].
    apply existsb_exists. exists e. split; [done|]. by apply audit_eqb_eq.
Qed.

Lemma remaining_transition st ns nl msg :
  transition st = Some (ns, nl, msg) → remaining st = S (remaining ns).
Proof.
  intros Ht. unfold remaining at 1. rewrite Ht.
  apply transition_Some in Ht
    as [(_ & -> & _)|(_ & -> & _)]; reflexivity.
Qed.

(** What a committed transition leaves of the document it started from. *)
Lemma committed_facts E now c c' :
  committed E now c c' →
  ∃ ns nl msg d,
    transition (status c) = Some (ns, nl, msg) ∧
    getDeadline c = Some d ∧ d < now ∧
    status c' = ns ∧ escalationLevel c' = Some nl ∧
    createdAt c' = createdAt c ∧ department c' = department c ∧
    assignedDepartment c' = assignedDepartment c ∧ severity c' = severity c ∧
    (timeline c' = timeline c
     ∨ timeline c' = timeline c ++ [tick_event now ns msg]) ∧
    (auditLog c' = auditLog c
     ∨ auditLog c' = arrayUnion (tick_audit E now c ns nl d) (auditLog c)).
Proof.
  intros (ns & nl & msg & d & Ht & Hd & Hlt & Hc).
  exists ns, nl, msg, d. simpl in Hc.
  destruct Hc as [->|[->| ->]]; simpl; repeat split; auto.
Qed.

Lemma commit_all_committed E now c c' d :
  commit_all E now c = Some c' → getDeadline c = Some d → d < now →
  committed E now c c'.
Proof.
  unfold commit_all. intros Hc Hd Hlt.
  destruct (transition (status c)) as [[[ns nl] msg]|] eqn:Ht; [|done].
  rewrite Hd in Hc. injection Hc as <-.
  exists ns, nl, msg, d. split; [done|]. split; [done|]. split; [done|].
  simpl. auto.
Qed.

(** The document after all three writes. *)
Lemma commit_all_facts E now c c' :
  commit_all E now c = Some c' →
  ∃ ns nl msg d,
    transition (status c) = Some (ns, nl, msg) ∧ getDeadline c = Some d ∧
    status c' = ns ∧ escalationLevel c' = Some nl ∧
    timeline c' = timeline c ++ [tick_event now ns msg] ∧
    auditLog c' = arrayUnion (tick_audit E now c ns nl d) (auditLog c).
Proof.
  unfold commit_all.
  destruct (transition (status c)) as [[[ns nl] msg]|] eqn:Ht; [|done].
  destruct (getDeadline c) as [d|] eqn:Hd; [|done].
  intros [= <-]. exists ns, nl, msg, d. simpl. repeat split; reflexivity.
Qed.

Lemma watchdog_step_refl c : watchdog_step c c.
Proof. unfold watchdog_step. repeat split; done. Qed.

Lemma watchdog_step_trans c1 c2 c3 :
  watchdog_step c1 c2 → watchdog_step c2 c3 → watchdog_step c1 c3.
Proof.
  unfold watchdog_step.
  intros (? & ? & ? & ? & ? & ? & ? & ?) (? & ? & ? & ? & ? & ? & ? & ?).
  repeat split; try congruence; try (by etrans); lia.
Qed.

Lemma committed_then_events_step E now c c1 evs c2 :
  committed E now c c1 →
  timeline_extended c1 evs c2 →
  (length evs ≤ 1)%nat →
  watchdog_step c c2.
Proof.
  intros (ns & nl & msg & d & Ht & _ & _ & Hs & _ & Hca & Hdp & Hadp & Hsv
          & Htl & Hau)%committed_facts Hext Hlen.
  apply remaining_transition in Ht. rewrite <- Hs in Ht.
  unfold timeline_extended in Hext. subst c2. unfold watchdog_step. simpl.
  repeat split; try done.
  - destruct Htl as [->| ->].
    + by apply prefix_app_r.
    + rewrite <- app_assoc. by apply prefix_app_r.
  - destruct Hau as [-> | ->]; [done|].
    destruct (arrayUnion_spec (tick_audit E now c ns nl d) (auditLog c))
      as [[_ ->]|[_ ->]]; [done|by apply prefix_app_r].
  - destruct Htl as [->| ->]; rewrite ?length_app; simpl; lia.
  - destruct Hau as [-> | ->]; [lia|].
    destruct (arrayUnion_spec (tick_audit E now c ns nl d) (auditLog c))
      as [[_ ->]|[_ ->]]; rewrite ?length_app; simpl; lia.
Qed.

Section CycleSteps.

Variable E : Env.

Lemma cycle_step now s k c :
  docs s !! k = Some c →
  ∃ c', docs (cycle E now s) !! k = Some c' ∧ watchdog_step c c'.
Proof.
  intros Hk. unfold cycle.
  destruct (tick E now s) as [[[res escs]|e] s1] eqn:Ht.
  - apply tick_ok_spec in Ht as (_ & Hids & Hnd & _ & Hdocs).
    rewrite Hids in Hnd, Hdocs.
    destruct (addEscalationExplanations E escs s1) as [r2 s2] eqn:Ha.
    apply (addEscalationExplanations_spec _ _ _ _ _ k) in Ha. simpl.
    destruct (filter_id_NoDup escs k Hnd) as [Hle Hnone].
    destruct (Hdocs k) as [(Hin & c0 & c1 & d & Hc0 & Hcm & Hd & Hlt & Hk1)
                          |(Hnin & Hk1)].
    + assert (c0 = c) as -> by congruence.
      rewrite Hk1 in Ha. destruct Ha as (evs & c2 & Hk2 & Hext & _ & Hlen).
      exists c2. split; [done|].
      eapply committed_then_events_step;
        [by eapply commit_all_committed|exact Hext|lia].
    + rewrite Hk1, Hk in Ha. destruct Ha as (evs & c2 & Hk2 & Hext & _ & Hlen).
      rewrite (Hnone Hnin) in Hlen. destruct evs; [|simpl in Hlen; lia].
      exists c2. split; [done|].
      assert (c2 = c) as ->; [|apply watchdog_step_refl].
      unfold timeline_extended in Hext. rewrite app_nil_r in Hext.
      rewrite Hext. by destruct c.
  - destruct (tick_docs _ _ _ _ _ k Ht) as [Heq|(c0 & c1 & Hc0 & Hk1 & Hcm)].
    + exists c. split; [by rewrite Heq|apply watchdog_step_refl].
    + assert (c0 = c) as -> by congruence.
      exists c1. split; [done|].
      eapply committed_then_events_step;
        [exact Hcm|apply timeline_extended_nil|simpl; lia].
Qed.

Lemma cycle_none now s k :
  docs s !! k = None → docs (cycle E now s) !! k = None.
Proof.
  intros Hk. unfold cycle.
  destruct (tick E now s) as [[[res escs]|e] s1] eqn:Ht.
  - destruct (tick_docs _ _ _ _ _ k Ht) as [Heq|(c0 & c1 & Hc0 & _)];
      [|congruence].
    destruct (addEscalationExplanations E escs s1) as [r2 s2] eqn:Ha.
    apply (addEscalationExplanations_spec _ _ _ _ _ k) in Ha.
    rewrite Heq, Hk in Ha. done.
  - destruct (tick_docs _ _ _ _ _ k Ht) as [Heq|(c0 & c1 & Hc0 & _)];
      congruence.
Qed.

Lemma cycles_step nows s k c :
  docs s !! k = Some c →
  ∃ c', docs (cycles E nows s) !! k = Some c' ∧ watchdog_step c c'.
Proof.
  revert s c. induction nows as [|now nows IH]; intros s c Hk; simpl.
  - exists c. split; [done|apply watchdog_step_refl].
  - destruct (cycle_step now s k c Hk) as (c1 & Hk1 & Hs1).
    destruct (IH _ _ Hk1) as (c2 & Hk2 & Hs2).
    exists c2. split; [done|]. by eapply watchdog_step_trans.
Qed.

Lemma cycles_none nows s k :
  docs s !! k = None → docs (cycles E nows s) !! k = None.
Proof.
  revert s. induction nows as [|now nows IH]; intros s Hk; simpl; [done|].
  apply IH. by apply cycle_none.
Qed.

End CycleSteps.

(** ** What cycles keep, and how much they write *)

(** X1: cycles never create or delete a document.  After one cycle, and
    after any number of cycles each followed by its enricher, the
    collection has the same document ids as before. *)
Theorem cycles_keep_document_ids E now nows s :
  dom (docs (tick E now s).2) = dom (docs s) ∧
  dom (docs (cycles E nows s)) = dom (docs s).
Proof.
  split; apply set_eq; intros k; rewrite !elem_of_dom.
  - destruct (tick E now s) as [r s1] eqn:Ht. simpl.
    destruct (tick_docs _ _ _ _ _ k Ht) as [->|(c & c' & -> & -> & _)];
      [done|]. split; eauto.
  - split.
    + intros [c' Hc']. destruct (docs s !! k) as [c|] eqn:Hc; [eauto|].
      apply (cycles_none E nows) in Hc. congruence.
    + intros [c Hc]. destruct (cycles_step E nows s k c Hc) as (c' & -> & _).
      eauto.
Qed.

(** X2: the watchdog is append-only.  Over any number of cycles, each
    followed by its enricher and whatever fails on the way, a document
    keeps [createdAt], [department], [assignedDepartment] and [severity],
    and its old timeline and its old audit log are prefixes of the new
    ones: no entry is changed, dropped or reordered. *)
Theorem cycles_append_only E nows s k c :
  docs s !! k = Some c →
  ∃ c', docs (cycles E nows s) !! k = Some c' ∧
        createdAt c' = createdAt c ∧
        department c' = department c ∧
        assignedDepartment c' = assignedDepartment c ∧
        severity c' = severity c ∧
        timeline c `prefix_of` timeline c' ∧
        auditLog c `prefix_of` auditLog c'.
Proof.
  intros Hk.
  destruct (cycles_step E nows s k c Hk)
    as (c' & Hk' & H1 & H2 & H3 & H4 & H5 & H6 & _).
  exists c'. auto 10.
Qed.

Lemma cycles_append_only_witness :
  docs sysA !! "c1"%string = Some beforeA ∧
  ∃ c', docs (cycles envA [11000; 22000; 99000] sysA) !! "c1"%string = Some c' ∧
        createdAt c' = createdAt beforeA ∧
        department c' = department beforeA ∧
        assignedDepartment c' = assignedDepartment beforeA ∧
        severity c' = severity beforeA ∧
        timeline beforeA `prefix_of` timeline c' ∧
        auditLog beforeA `prefix_of` auditLog c'.
Proof.
  split; [reflexivity|].
  apply (cycles_append_only envA [11000; 22000; 99000] sysA "c1" beforeA).
  reflexivity.
Defined.

Lemma remaining_le_2 st : (remaining st ≤ 2)%nat.
Proof.
  unfold remaining. destruct (transition st) as [[[st1 ?] ?]|]; [|lia].
  destruct (transition st1); lia.
Qed.

(** X3: the writes of the watchdog are bounded per complaint.  However many
    cycles run, a complaint gets at most as many audit entries as its
    status has transitions left (two from submitted, analyzed or
    in_progress, one from sla_warning, none otherwise) and at most twice as
    many timeline events, the enricher's included; and the transitions
    left never grow back. *)
Theorem cycles_bounded_writes E nows s k c :
  docs s !! k = Some c →
  ∃ c', docs (cycles E nows s) !! k = Some c' ∧
        (remaining (status c') ≤ remaining (status c) ≤ 2)%nat ∧
        (length (auditLog c') ≤ length (auditLog c) + remaining (status c))%nat ∧
        (length (timeline c') ≤ length (timeline c) + 2 * remaining (status c))%nat.
Proof.
  intros Hk.
  destruct (cycles_step E nows s k c Hk)
    as (c' & Hk' & _ & _ & _ & _ & Hp1 & Hp2 & Ht & Ha).
  exists c'. split; [done|].
  pose proof (remaining_le_2 (status c)).
  apply prefix_length in Hp1, Hp2. repeat split; lia.
Qed.

Lemma cycles_bounded_writes_witness :
  docs sysA !! "c1"%string = Some beforeA ∧
  remaining (status beforeA) = 2%nat ∧
  ∃ c', docs (cycles envA [11000; 22000; 99000; 200000] sysA) !! "c1"%string
        = Some c' ∧
        (remaining (status c') ≤ remaining (status beforeA) ≤ 2)%nat ∧
        (length (auditLog c')
         ≤ length (auditLog beforeA) + remaining (status beforeA))%nat ∧
        (length (timeline c')
         ≤ length (timeline beforeA) + 2 * remaining (status beforeA))%nat.
Proof.
  split; [reflexivity|]. split; [reflexivity|].
  apply (cycles_bounded_writes envA [11000; 22000; 99000; 200000] sysA
           "c1" beforeA).
  reflexivity.
Defined.

(** The action of the watchdog's timeline event is the new status. *)
Lemma timeline_action_new_status st ns nl msg :
  transition st = Some (ns, nl, msg) → timeline_action ns = ns.
Proof.
  intros [(_ & -> & _)|(_ & -> & _)]%transition_Some; reflexivity.
Qed.

(** X4: what a resolved cycle reports.  [escalated] is the length of
    [updatedIds], which lists without repetition the ids of the records
    handed to the enricher, at most as many as were scanned, which is at
    most 250.  A document is in [updatedIds] exactly when the cycle changed
    it; such a document now has status sla_warning or escalated and one
    more timeline event, a system event stamped [now] whose action is
    the new status. *)
Theorem tick_reports_committed_transitions E now s res escs s' k :
  tick E now s = (Ok (res, escs), s') →
  escalated res = length (updatedIds res) ∧
  updatedIds res = esc_id <$> escs ∧
  NoDup (updatedIds res) ∧
  (escalated res ≤ scanned res ∧ scanned res ≤ 250)%nat ∧
  ((k ∈ updatedIds res ∧
    ∃ c c' ev,
      docs s !! k = Some c ∧ docs s' !! k = Some c' ∧
      status c' ∈ ["sla_warning"; "escalated"]%string ∧
      status c' ≠ status c ∧
      timeline c' = timeline c ++ [ev] ∧
      ev_type ev = "system"%string ∧ ev_action ev = status c' ∧
      ev_timestamp ev = now)
   ∨ ((k ∉ updatedIds res) ∧ docs s' !! k = docs s !! k)).
Proof.
  intros (Hn & Hids & Hnd & Hlen & Hdocs)%tick_ok_spec.
  split; [done|]. split; [done|]. split; [done|].
  split; [rewrite Hn; done|].
  destruct (Hdocs k) as [(Hin & c & c' & d & Hc & Hcm & _ & _ & Hc')|Hout];
    [left|by right].
  split; [done|].
  apply commit_all_facts in Hcm
    as (ns & nl & msg & d' & Ht & _ & Hs & _ & Htl & _).
  exists c, c', (tick_event now ns msg).
  split; [done|]. split; [done|].
  apply transition_Some in Ht.
  rewrite Hs, !elem_of_cons. unfold timeline_action.
  destruct Ht as [(Hin' & -> & _)|(Ho & -> & _)]; simpl.
  - repeat split; auto.
    rewrite !elem_of_cons in Hin'.
    by destruct Hin' as [->|[->|[->|[]%elem_of_nil]]].
  - repeat split; auto. by rewrite Ho.
Qed.

Lemma tick_reports_committed_transitions_witness :
  updatedIds (Build_TickResult 1 1 ["c1"%string]) = ["c1"%string] ∧
  (("c1"%string ∈ ["c1"%string] ∧
    ∃ c c' ev,
      docs sysA !! "c1"%string = Some c ∧
      docs (tick envA 11000 sysA).2 !! "c1"%string = Some c' ∧
      status c' ∈ ["sla_warning"; "escalated"]%string ∧
      status c' ≠ status c ∧
      timeline c' = timeline c ++ [ev] ∧
      ev_type ev = "system"%string ∧ ev_action ev = status c' ∧
      ev_timestamp ev = 11000)
   ∨ (("c1"%string ∉ ["c1"%string]) ∧
      docs (tick envA 11000 sysA).2 !! "c1"%string = docs sysA !! "c1"%string)).
Proof.
  split; [reflexivity|].
  apply (tick_reports_committed_transitions envA 11000 sysA
           (Build_TickResult 1 1 ["c1"%string])
           [escalation_of 11000 "c1" beforeA "sla_warning"]
           (tick envA 11000 sysA).2 "c1").
  vm_compute; reflexivity.
Defined.

(** X5: the audit entry of a reported transition.  For every id a
    resolved cycle reports, the audit log of the document now holds the
    entry of the transition, as its last element unless an equal entry was
    there already, and the entry says what happened: actor system, the
    cycle's [now], the old and new status, the old level (0 when there was
    none) and the new one, the deadline that was missed and the new one. *)
Theorem tick_audit_entry_records_transition E now s res escs s' k :
  tick E now s = (Ok (res, escs), s') →
  k ∈ updatedIds res →
  ∃ c c' e,
    docs s !! k = Some c ∧ docs s' !! k = Some c' ∧
    e ∈ auditLog c' ∧
    (auditLog c' = auditLog c ∨ auditLog c' = auditLog c ++ [e]) ∧
    au_actor e = "system"%string ∧ au_timestamp e = now ∧
    au_oldStatus e = status c ∧ au_newStatus e = status c' ∧
    au_prevLevel e = default 0 (escalationLevel c) ∧
    Some (au_newLevel e) = escalationLevel c' ∧
    Some (au_previousDeadline e) = getDeadline c ∧
    Some (au_newDeadline e) = slaDeadline c' ∧
    slaDeadline c' = expectedResolutionTime c'.
Proof.
  intros (_ & _ & _ & _ & Hdocs)%tick_ok_spec Hin.
  destruct (Hdocs k) as [(_ & c & c' & d & Hc & Hcm & Hd & Hlt & Hc')|[Hout _]];
    [|done].
  pose proof (commit_all_committed _ _ _ _ _ Hcm Hd Hlt)
    as (Hsd & Her & _)%committed_deadline.
  apply commit_all_facts in Hcm
    as (ns & nl & msg & d' & Ht & Hd' & Hs & Hl & _ & Hau).
  assert (d' = d) as -> by congruence.
  exists c, c', (tick_audit E now c ns nl d).
  split; [done|]. split; [done|]. rewrite Hau.
  split; [|split].
  - destruct (arrayUnion_spec (tick_audit E now c ns nl d) (auditLog c))
      as [[Hin' ->]|[_ ->]]; [done|].
    apply elem_of_app. right. apply list_elem_of_here.
  - destruct (arrayUnion_spec (tick_audit E now c ns nl d) (auditLog c))
      as [[_ ->]|[_ ->]]; auto.
  - simpl. rewrite Hs, Hl, Hd, Hsd, Her. repeat split; reflexivity.
Qed.

Lemma tick_audit_entry_records_transition_witness :
  "c1"%string ∈ updatedIds (Build_TickResult 1 1 ["c1"%string]) ∧
  ∃ c c' e,
    docs sysA !! "c1"%string = Some c ∧
    docs (tick envA 11000 sysA).2 !! "c1"%string = Some c' ∧
    e ∈ auditLog c' ∧
    (auditLog c' = auditLog c ∨ auditLog c' = auditLog c ++ [e]) ∧
    au_actor e = "system"%string ∧ au_timestamp e = 11000 ∧
    au_oldStatus e = status c ∧ au_newStatus e = status c' ∧
    au_prevLevel e = default 0 (escalationLevel c) ∧
    Some (au_newLevel e) = escalationLevel c' ∧
    Some (au_previousDeadline e) = getDeadline c ∧
    Some (au_newDeadline e) = slaDeadline c' ∧
    slaDeadline c' = expectedResolutionTime c'.
Proof.
  split; [apply list_elem_of_here|].
  apply (tick_audit_entry_records_transition envA 11000 sysA
           (Build_TickResult 1 1 ["c1"%string])
           [escalation_of 11000 "c1" beforeA "sla_warning"]
           (tick envA 11000 sysA).2 "c1").
  - vm_compute; reflexivity.
  - apply list_elem_of_here.
Defined.

Lemma overdue_ids_nil now (d : gmap string Complaint) :
  (∀ k c, d !! k = Some c → isOverdue now c = false) →
  overdue_ids now d = [].
Proof.
  intros Hno. unfold overdue_ids.
  assert (filter (λ kc : string * Complaint, isOverdue now (kc.2) = true)
            (query_page d) = []) as ->; [|done].
  destruct (filter _ (query_page d)) as [|[k c] l] eqn:Hf; [done|].
  assert ((k, c) ∈ filter (λ kc : string * Complaint,
                             isOverdue now (kc.2) = true) (query_page d))
    as [Ho Hin]%list_elem_of_filter by (rewrite Hf; apply list_elem_of_here).
  simpl in Ho. unfold query_page in Hin. apply subseteq_take in Hin.
  rewrite merge_sort_Permutation in Hin.
  apply list_elem_of_filter in Hin as [_ Hin].
  apply elem_of_map_to_list in Hin. rewrite (Hno _ _ Hin) in Ho. done.
Qed.

(** X6: a cycle that finds nothing overdue.  When no document has a
    deadline strictly in the past, a cycle makes one call, the bulk query,
    and writes nothing: no timeline event, no audit entry; it reports the
    number of documents scanned and no transition, or rejects with the
    error of the query. *)
Theorem tick_nothing_overdue E now s :
  running s = false →
  (∀ k c, docs s !! k = Some c → isOverdue now c = false) →
  (tick E now s).2 = log_op OpQuery s ∧
  ((tick E now s).1
   = Ok ({| scanned := length (query_page (docs s));
            escalated := 0; updatedIds := [] |}, [])
   ∨ (tick E now s).1 = Throw (StoreError OpQuery)).
Proof.
  intros Hrun Hno.
  assert (set_running false (log_op OpQuery (set_running true s))
          = log_op OpQuery s) as Hs.
  { destruct s; simpl in *. subst. reflexivity. }
  destruct (fails E (trace s) OpQuery) eqn:Hq.
  - unfold tick, try_finally, tick_body, runQuery, bind, call.
    rewrite Hrun. simpl. rewrite Hq. simpl. split; [exact Hs|by right].
  - rewrite Claims.tick_unfold by done. rewrite overdue_ids_nil by done. simpl.
    split; [exact Hs|by left].
Qed.

Lemma tick_nothing_overdue_witness :
  running (store [("c1"%string, notYetDue)]) = false ∧
  (tick envA 11000 (store [("c1"%string, notYetDue)])).2
  = log_op OpQuery (store [("c1"%string, notYetDue)]).
Proof.
  split; [reflexivity|].
  apply (tick_nothing_overdue envA 11000 (store [("c1"%string, notYetDue)])).
  - reflexivity.
  - intros k c Hk.
    destruct (decide (k = "c1"%string)) as [->|Hne].
    + vm_compute in Hk. injection Hk as <-. reflexivity.
    + unfold store in Hk. simpl in Hk.
      rewrite lookup_insert_ne in Hk by done. done.
Defined.

Lemma extensionMs_pos v : 0 < extensionMs v.
Proof.
  unfold extensionMs, env_number. destruct v as [[|z]|]; simpl; try lia.
  destruct (Z.ltb_spec 0 z); lia.
Qed.

(** X7: one advance per extension.  The extension is always positive, and
    a document a cycle has changed at [now] is left alone by every later
    cycle that runs at or before [now] plus the extension, in the same or
    in any other surroundings: a second scan of the same breach cannot
    advance the complaint again. *)
Theorem one_advance_per_extension E E2 now now2 s r s1 r2 s2 k c c1 :
  tick E now s = (r, s1) →
  docs s !! k = Some c →
  docs s1 !! k = Some c1 →
  c1 ≠ c →
  now2 <= now + extensionMs (DEMO_SLA_SECONDS E) →
  tick E2 now2 s1 = (r2, s2) →
  0 < extensionMs (DEMO_SLA_SECONDS E) ∧ docs s2 !! k = Some c1.
Proof.
  intros Ht Hk Hk1 Hne Hle Ht2. split; [apply extensionMs_pos|].
  destruct (tick_docs _ _ _ _ _ k Ht) as [Heq|(c0 & c0' & Hc0 & Hc0' & Hcm)];
    [congruence|].
  assert (c0' = c1) as -> by congruence.
  apply committed_deadline in Hcm as (Hsd & _ & _).
  eapply tick_frame; [exact Ht2|exact Hk1|].
  intros c' (d & Hd & Hlt)%committed_overdue.
  unfold getDeadline in Hd. rewrite Hsd in Hd. injection Hd as <-. lia.
Qed.

Lemma one_advance_per_extension_witness :
  docs sysA !! "c1"%string = Some beforeA ∧
  docs (tick envA 11000 sysA).2 !! "c1"%string = Some afterA ∧
  afterA ≠ beforeA ∧
  21000 <= 11000 + extensionMs (DEMO_SLA_SECONDS envA) ∧
  0 < extensionMs (DEMO_SLA_SECONDS envA) ∧
  docs (tick envOk 21000 (tick envA 11000 sysA).2).2 !! "c1"%string = Some afterA.
Proof.
  split; [reflexivity|]. split; [vm_compute; reflexivity|].
  split; [discriminate|]. split; [vm_compute; discriminate|].
  apply (one_advance_per_extension envA envOk 11000 21000 sysA
           (tick envA 11000 sysA).1 (tick envA 11000 sysA).2
           (tick envOk 21000 (tick envA 11000 sysA).2).1
           (tick envOk 21000 (tick envA 11000 sysA).2).2 "c1" beforeA afterA).
  - apply surjective_pairing.
  - reflexivity.
  - vm_compute; reflexivity.
  - discriminate.
  - vm_compute; discriminate.
  - apply surjective_pairing.
Defined.

(** X8: the timer interval against the extension.  The interval is one
    second exactly when the configured number is between 1 and 30, and one
    minute otherwise; in the one-second mode the extension is the
    configured number of seconds, between one and thirty seconds; and in
    the one-minute mode the extension is shorter than the interval exactly
    when the variable is unset or set to a number between 31 and 59. *)
Theorem interval_and_extension (v : option JsNum) :
  (WATCHDOG_INTERVAL_MS v = 1000 ↔ ∃ z, v = Some (Num z) ∧ 0 < z ∧ z <= 30) ∧
  (WATCHDOG_INTERVAL_MS v ≠ 1000 → WATCHDOG_INTERVAL_MS v = 60000) ∧
  (∀ z, v = Some (Num z) → 0 < z → z <= 30 →
        extensionMs v = z * 1000 ∧ 1000 <= extensionMs v <= 30000) ∧
  (WATCHDOG_INTERVAL_MS v = 60000 →
   (extensionMs v < WATCHDOG_INTERVAL_MS v ↔
    v = None ∨ ∃ z, v = Some (Num z) ∧ 31 <= z ∧ z <= 59)).
Proof.
  unfold WATCHDOG_INTERVAL_MS, extensionMs, env_number, js_gt0, js_le.
  destruct v as [[|z]|]; simpl.
  - split; [split; [done|intros (z & [=] & _)]|].
    split; [done|]. split; [intros z [=]|].
    intros _. split; [lia|]. intros [[=]|(z & [=] & _)].
  - destruct (Z.ltb_spec 0 z) as [Hp|Hn];
      destruct (Z.leb_spec z 30) as [Hle|Hgt]; simpl.
    + split; [split; [eauto|done]|]. split; [done|].
      split; [intros ? [= <-] _ _; lia|done].
    + split; [split; [done|intros (? & [= <-] & _ & ?); lia]|].
      split; [done|]. split; [intros ? [= <-] _ ?; lia|].
      intros _. split.
      * intros Hlt. right. exists z. split; [done|lia].
      * intros [[=]|(? & [= <-] & ? & ?)]. lia.
    + split; [split; [done|intros (? & [= <-] & ? & _); lia]|].
      split; [done|]. split; [intros ? [= <-] ? _; lia|].
      intros _. split; [lia|]. intros [[=]|(? & [= <-] & ? & ?)]. lia.
    + split; [split; [done|intros (? & [= <-] & ? & _); lia]|].
      split; [done|]. split; [intros ? [= <-] ? _; lia|].
      intros _. split; [lia|]. intros [[=]|(? & [= <-] & ? & ?)]. lia.
  - split; [split; [done|intros (z & [=] & _)]|].
    split; [done|]. split; [intros z [=]|].
    intros _. split; [by left|lia].
Qed.

(** X9: the card shows what the watchdog did.  Every document a cycle has
    changed has a level above 0, so the complaint card renders it with the
    escalated badge, and the level the badge prints is 1 or 2. *)
Theorem transitioned_complaint_is_shown_escalated E now s r s' k c c' :
  tick E now s = (r, s') →
  docs s !! k = Some c →
  docs s' !! k = Some c' →
  c' ≠ c →
  isEscalated c' = true ∧
  (escalationLevel c' = Some 1 ∨ escalationLevel c' = Some 2).
Proof.
  intros Ht Hk Hk' Hne.
  destruct (tick_docs _ _ _ _ _ k Ht) as [Heq|(c0 & c0' & Hc0 & Hc0' & Hcm)];
    [congruence|].
  assert (c0' = c') as -> by congruence.
  apply committed_edge in Hcm. unfold isEscalated.
  destruct Hcm as [(_ & _ & ->)|(_ & _ & ->)]; auto.
Qed.

Lemma transitioned_complaint_is_shown_escalated_witness :
  docs sysA !! "c1"%string = Some beforeA ∧
  docs (tick envA 11000 sysA).2 !! "c1"%string = Some afterA ∧
  afterA ≠ beforeA ∧
  isEscalated beforeA = false ∧
  isEscalated afterA = true ∧
  (escalationLevel afterA = Some 1 ∨ escalationLevel afterA = Some 2).
Proof.
  split; [reflexivity|]. split; [vm_compute; reflexivity|].
  split; [discriminate|]. split; [reflexivity|].
  apply (transitioned_complaint_is_shown_escalated envA 11000 sysA
           (tick envA 11000 sysA).1 (tick envA 11000 sysA).2 "c1" beforeA afterA).
  - apply surjective_pairing.
  - reflexivity.
  - vm_compute; reflexivity.
  - discriminate.
Defined.

(** ** The enricher as a whole *)

Lemma addEscalationExplanations_running E escs s r s' :
  addEscalationExplanations E escs s = (r, s') → running s' = running s.
Proof.
  revert s. induction escs as [|esc escs IH]; intros s; simpl.
  - by intros [= <- <-].
  - unfold bind. destruct (explain_one E esc s) as [[[]|e] s1] eqn:H1;
      apply explain_one_spec in H1 as (Hr & _).
    + intros Hl%IH. congruence.
    + intros [= <- <-]. done.
Qed.

(** X10: the enricher never touches the authoritative state.  Whatever the
    advisory service and the store do, running the enricher on any list of
    escalations leaves the re-entrancy flag and, in every document, the
    status, the level, both deadlines, [updatedAt] and the audit log as
    they were; a timeline only gains system events at its end, each with
    one of the two enricher actions, and at most one for each escalation
    that names the document. *)
Theorem enricher_only_appends_events E escs s r s' k c :
  addEscalationExplanations E escs s = (r, s') →
  docs s !! k = Some c →
  running s' = running s ∧
  ∃ evs c',
    docs s' !! k = Some c' ∧
    status c' = status c ∧ escalationLevel c' = escalationLevel c ∧
    slaDeadline c' = slaDeadline c ∧
    expectedResolutionTime c' = expectedResolutionTime c ∧
    updatedAt c' = updatedAt c ∧ auditLog c' = auditLog c ∧
    timeline c' = timeline c ++ evs ∧
    Forall (λ ev, ev_type ev = "system"%string ∧
                  ev_action ev ∈ ["ai_escalation_justification";
                                  "ai_escalation_justification_failed"]%string)
           evs ∧
    (length evs ≤ length (filter (λ esc, esc_id esc = k) escs))%nat.
Proof.
  intros Ha Hk. split; [by eapply addEscalationExplanations_running|].
  apply (addEscalationExplanations_spec _ _ _ _ _ k) in Ha. rewrite Hk in Ha.
  destruct Ha as (evs & c' & Hk' & Hext & Hall & Hlen).
  exists evs, c'. split; [done|]. unfold timeline_extended in Hext.
  rewrite Hext. simpl. repeat split; try done.
  eapply Forall_impl; [exact Hall|]. intros ev (t & [->|[o ->]]); simpl.
  - split; [done|]. apply list_elem_of_further, list_elem_of_here.
  - split; [done|]. apply list_elem_of_here.
Qed.

Lemma enricher_only_appends_events_witness :
  docs sysW !! "c1"%string = Some warnedC ∧
  running (addEscalationExplanations (quiet None Threw) [escA; escA] sysW).2
  = running sysW ∧
  ∃ evs c',
    docs (addEscalationExplanations (quiet None Threw) [escA; escA] sysW).2
      !! "c1"%string = Some c' ∧
    status c' = status warnedC ∧ escalationLevel c' = escalationLevel warnedC ∧
    slaDeadline c' = slaDeadline warnedC ∧
    expectedResolutionTime c' = expectedResolutionTime warnedC ∧
    updatedAt c' = updatedAt warnedC ∧ auditLog c' = auditLog warnedC ∧
    timeline c' = timeline warnedC ++ evs ∧
    Forall (λ ev, ev_type ev = "system"%string ∧
                  ev_action ev ∈ ["ai_escalation_justification";
                                  "ai_escalation_justification_failed"]%string)
           evs ∧
    (length evs ≤ length (filter (λ esc, esc_id esc = "c1"%string)
                            [escA; escA]))%nat.
Proof.
  split; [reflexivity|].
  apply (enricher_only_appends_events (quiet None Threw) [escA; escA] sysW
           (addEscalationExplanations (quiet None Threw) [escA; escA] sysW).1
           (addEscalationExplanations (quiet None Threw) [escA; escA] sysW).2
           "c1" warnedC).
  - apply surjective_pairing.
  - reflexivity.
Defined.

(** X11: one item of the enricher is all or nothing.  For an escalation
    whose complaint exists, the item makes at most three calls and either
    resolves, having appended exactly one enricher event to the timeline
    of that complaint and changed nothing else, or rejects, having changed
    nothing at all. *)
Theorem explain_one_all_or_nothing E esc s r s' c :
  explain_one E esc s = (r, s') →
  docs s !! esc_id esc = Some c →
  (length (trace s') ≤ length (trace s) + 3)%nat ∧
  ((r = Ok tt ∧
    ∃ ev, enricher_event ev ∧
          docs s' = <[esc_id esc := push_timeline ev c]> (docs s))
   ∨ ((∃ e, r = Throw e) ∧ docs s' = docs s)).
Proof.
  intros (_ & Hlen & Hd)%explain_one_spec Hc. split; [done|].
  destruct Hd as [Hd|(-> & ev & Hev & ->)]; [by right|left].
  split; [done|]. exists ev. split; [done|].
  apply map_eq. intros j. destruct (decide (esc_id esc = j)) as [<-|Hne].
  - by rewrite lookup_alter_eq, lookup_insert_eq, Hc.
  - by rewrite lookup_alter_ne, lookup_insert_ne.
Qed.

Lemma explain_one_all_or_nothing_witness :
  docs sysW !! esc_id escA = Some warnedC ∧
  (explain_one timelineFails escA sysW).1 = Throw (StoreError (OpTimeline "c1")) ∧
  (length (trace (explain_one timelineFails escA sysW).2)
   ≤ length (trace sysW) + 3)%nat ∧
  (((explain_one timelineFails escA sysW).1 = Ok tt ∧
    ∃ ev, enricher_event ev ∧
          docs (explain_one timelineFails escA sysW).2
          = <[esc_id escA := push_timeline ev warnedC]> (docs sysW))
   ∨ ((∃ e, (explain_one timelineFails escA sysW).1 = Throw e) ∧
      docs (explain_one timelineFails escA sysW).2 = docs sysW)).
Proof.
  split; [reflexivity|]. split; [reflexivity|].
  apply (explain_one_all_or_nothing timelineFails escA sysW
           (explain_one timelineFails escA sysW).1
           (explain_one timelineFails escA sysW).2 warnedC).
  - apply surjective_pairing.
  - reflexivity.
Defined.

(** X12: a retried append is always labelled as a failure.  When the
    advisory call returns, whatever it returns, and the timeline append in
    the [try] block rejects while the one in the [catch] block goes
    through, the one event appended is the failure event, "AI justification
    unavailable" under [ai_escalation_justification_failed], even if the
    service did return a justification. *)
Theorem retry_mislabels_justification E esc s c o :
  let rq := request_of esc in
  let id := esc_id esc in
  advise E (trace s) rq = Returned o →
  docs s !! id = Some c →
  fails E (trace s ++ [OpExplain rq]) (OpTimeline id) = true →
  fails E (trace s ++ [OpExplain rq; OpTimeline id]) (OpTimeline id) = false →
  explain_one E esc s
  = (Ok tt,
     {| running := running s;
        docs := <[id := push_timeline
                          (failed_event
                             (clock E (trace s ++ [OpExplain rq; OpTimeline id])))
                          c]> (docs s);
        trace := trace s ++ [OpExplain rq; OpTimeline id; OpTimeline id] |}).
Proof.
  intros rq id Ha Hc Hf1 Hf2.
  unfold explain_one, try_catch, bind, explainEscalation.
  fold (request_of esc). fold rq. fold id. rewrite Ha.
  unfold appendTimelineEvent, bind, call, modify_docs. simpl.
  rewrite Hf1. simpl. rewrite <- app_assoc. simpl. rewrite Hf2. simpl.
  f_equal. unfold set_docs, failed_event. simpl. f_equal.
  - apply map_eq. intros j. destruct (decide (id = j)) as [<-|Hne].
    + by rewrite lookup_alter_eq, lookup_insert_eq, Hc.
    + by rewrite lookup_alter_ne, lookup_insert_ne.
  - rewrite <- !app_assoc. reflexivity.
Qed.

Lemma retry_mislabels_justification_witness :
  advise (envRetry (Returned (Some "Overdue"%string))) (trace sysW)
         (request_of escA) = Returned (Some "Overdue"%string) ∧
  timeline <$> docs (explain_one (envRetry (Returned (Some "Overdue"%string)))
                       escA sysW).2 !! "c1"%string
  = Some [failed_event 99000].
Proof.
  split; [reflexivity|].
  rewrite (retry_mislabels_justification
             (envRetry (Returned (Some "Overdue"%string))) escA sysW warnedC
             (Some "Overdue"%string));
    reflexivity.
Defined.

(** ** A cycle in which no call fails *)

Section QuietCycle.

Variable E : Env.
Hypothesis quiet_store : ∀ h op, fails E h op = false.

Lemma explain_one_quiet esc s :
  ∃ ev s', explain_one E esc s = (Ok tt, s') ∧ enricher_event ev ∧
           docs s' = alter (push_timeline ev) (esc_id esc) (docs s).
Proof.
  unfold explain_one, try_catch, bind, explainEscalation.
  fold (request_of esc).
  destruct (advise E (trace s) (request_of esc)) as [|o];
    unfold appendTimelineEvent, bind, call, modify_docs; simpl;
    rewrite quiet_store; simpl.
  - eexists _, _. split; [reflexivity|]. split; [|reflexivity].
    eexists. left. reflexivity.
  - eexists _, _. split; [reflexivity|]. split; [|reflexivity].
    eexists. right. exists o. reflexivity.
Qed.

Lemma addEscalationExplanations_quiet escs s r s' k c :
  NoDup (esc_id <$> escs) →
  addEscalationExplanations E escs s = (r, s') →
  docs s !! k = Some c →
  k ∈ (esc_id <$> escs) →
  r = Ok tt ∧
  ∃ ev, enricher_event ev ∧ docs s' !! k = Some (push_timeline ev c).
Proof.
  revert s c. induction escs as [|esc escs IH]; intros s c; simpl.
  - intros _ _ _ []%elem_of_nil.
  - intros [Hnotin Hnd]%NoDup_cons. unfold bind.
    destruct (explain_one_quiet esc s) as (ev & s1 & -> & Hev & Hd1).
    intros Hl Hk Hin.
    destruct (decide (esc_id esc = k)) as [Heq|Hne].
    + subst k. split.
      * clear -Hl quiet_store. revert s1 Hl.
        induction escs as [|e0 escs IH']; intros s1; simpl.
        -- by intros [= <- _].
        -- unfold bind.
           destruct (explain_one_quiet e0 s1) as (? & s2 & -> & _ & _).
           apply IH'.
      * exists ev. split; [done|].
        apply (addEscalationExplanations_spec _ _ _ _ _ (esc_id esc)) in Hl.
        rewrite Hd1, lookup_alter_eq, Hk in Hl. simpl in Hl.
        destruct Hl as (evs & c' & Hk' & Hext & _ & Hlen).
        destruct (filter_id_NoDup escs (esc_id esc) Hnd) as [_ Hnone].
        rewrite (Hnone Hnotin) in Hlen. destruct evs; [|simpl in Hlen; lia].
        rewrite Hk'. f_equal. unfold timeline_extended in Hext.
        rewrite app_nil_r in Hext. rewrite Hext.
        by destruct (push_timeline ev c).
    + apply (IH s1 c Hnd Hl).
      * by rewrite Hd1, lookup_alter_ne.
      * apply elem_of_cons in Hin as [->|Hin]; [done|exact Hin].
Qed.

(** X13: a cycle in which no call fails.  Every complaint the cycle
    reports in [updatedIds] ends the cycle and its enricher with exactly
    two events more on its timeline than before: the watchdog's event,
    whose action is the new status, and after it one enricher event. *)
Theorem quiet_cycle_appends_two_events now s res escs s1 k :
  tick E now s = (Ok (res, escs), s1) →
  k ∈ updatedIds res →
  ∃ c c' ev1 ev2,
    docs s !! k = Some c ∧
    docs (cycle E now s) !! k = Some c' ∧
    timeline c' = timeline c ++ [ev1; ev2] ∧
    ev_action ev1 = status c' ∧ ev_timestamp ev1 = now ∧
    ev_action ev2 ∈ ["ai_escalation_justification";
                     "ai_escalation_justification_failed"]%string.
Proof.
  intros Ht Hin. unfold cycle. rewrite Ht.
  pose proof Ht as (_ & Hids & Hnd & _ & _)%tick_ok_spec.
  pose proof Ht as (_ & _ & _ & _ & Hdocs)%tick_ok_spec.
  destruct (Hdocs k) as [(_ & c & c1 & d & Hc & Hcm & _ & _ & Hc1)|[Hout _]];
    [|done].
  apply commit_all_facts in Hcm
    as (ns & nl & msg & d' & Htr & _ & Hs & _ & Htl & _).
  apply timeline_action_new_status in Htr.
  set (ev1 := tick_event now ns msg) in *.
  assert (ev_action ev1 = status c1) as Hact by (rewrite Hs; exact Htr).
  assert (ev_timestamp ev1 = now) as Hts by reflexivity.
  rewrite Hids in Hnd, Hin.
  destruct (addEscalationExplanations E escs s1) as [r2 s2] eqn:Ha.
  destruct (addEscalationExplanations_quiet _ _ _ _ _ _ Hnd Ha Hc1 Hin)
    as (_ & ev2 & Hev2 & Hk2).
  exists c, (push_timeline ev2 c1), ev1, ev2. simpl.
  split; [done|]. split; [done|].
  split; [rewrite Htl, <- app_assoc; reflexivity|].
  split; [done|]. split; [done|].
  destruct Hev2 as (t & [->|[o ->]]); simpl.
  - apply list_elem_of_further, list_elem_of_here.
  - apply list_elem_of_here.
Qed.

End QuietCycle.

Lemma quiet_cycle_appends_two_events_witness :
  (∀ h op, fails envA h op = false) ∧
  "c1"%string ∈ updatedIds (Build_TickResult 1 1 ["c1"%string]) ∧
  ∃ c c' ev1 ev2,
    docs sysA !! "c1"%string = Some c ∧
    docs (cycle envA 11000 sysA) !! "c1"%string = Some c' ∧
    timeline c' = timeline c ++ [ev1; ev2] ∧
    ev_action ev1 = status c' ∧ ev_timestamp ev1 = 11000 ∧
    ev_action ev2 ∈ ["ai_escalation_justification";
                     "ai_escalation_justification_failed"]%string.
Proof.
  split; [reflexivity|]. split; [apply list_elem_of_here|].
  apply (quiet_cycle_appends_two_events envA (λ _ _, eq_refl) 11000 sysA
           (Build_TickResult 1 1 ["c1"%string])
           [escalation_of 11000 "c1" beforeA "sla_warning"]
           (tick envA 11000 sysA).2 "c1").
  - vm_compute; reflexivity.
  - apply list_elem_of_here.
Defined.

(** ** The timer driver *)

(** X14: one interval at most.  Whatever sequence of [start] and [stop]
    calls is made on a fresh service, the runtime holds no interval when
    the service holds no handle, and otherwise exactly one, the one the
    service holds the handle of, firing at [WATCHDOG_INTERVAL_MS]:
    intervals never pile up and [stop] leaves none behind. *)
Theorem timer_single_interval (v : option JsNum) (cs : list TimerCall) :
  match timer (timer_calls v cs idle) with
  | Some h => intervals (timer_calls v cs idle) = [(h, WATCHDOG_INTERVAL_MS v)]
  | None => intervals (timer_calls v cs idle) = []
  end.
Proof.
  assert (∀ t, match timer t with
               | Some h => intervals t = [(h, WATCHDOG_INTERVAL_MS v)]
               | None => intervals t = []
               end →
               match timer (timer_calls v cs t) with
               | Some h => intervals (timer_calls v cs t)
                           = [(h, WATCHDOG_INTERVAL_MS v)]
               | None => intervals (timer_calls v cs t) = []
               end) as Hinv; [|by apply Hinv].
  induction cs as [|c cs IH]; intros t Ht; simpl; [done|].
  apply IH. destruct c as [j|]; simpl.
  - unfold start. destruct (timer t) as [h|] eqn:Hh.
    + by rewrite Hh.
    + simpl. by rewrite Ht.
  - unfold stop. simpl. destruct (timer t) as [h|]; [|done].
    rewrite Ht. unfold clearInterval. rewrite filter_cons. simpl.
    destruct (decide (h ≠ h)); done.
Qed.

(** X15: [start] and [stop] are idempotent.  A second [start], with any
    jitter, on a service that was just started changes nothing, and so
    does a second [stop]; a [start] on a service that holds a handle
    schedules nothing. *)
Theorem start_and_stop_idempotent (v : option JsNum) (j1 j2 : Z) (t : Timers) :
  start v j2 (start v j1 t) = start v j1 t ∧
  stop (stop t) = stop t ∧
  (is_Some (timer t) → start v j1 t = t).
Proof.
  unfold start, stop. destruct (timer t) as [h|] eqn:Hh; simpl.
  - rewrite Hh. repeat split; done.
  - repeat split; done.
Qed.

(** X16: [stop] does not cancel the first tick.  The one-shot timer that
    [start] schedules, 500 ms plus the jitter ahead, is still pending
    after a [stop]; no sequence of [start] and [stop] calls ever removes a
    pending one-shot timer. *)
Theorem one_shot_survives_stop (v : option JsNum) (j : Z) (cs : list TimerCall)
    (t : Timers) :
  timer t = None →
  timeouts (stop (start v j t)) = timeouts t ++ [(next_handle t, 500 + j)] ∧
  ((S (next_handle t), WATCHDOG_INTERVAL_MS v) ∉ intervals (stop (start v j t))) ∧
  timeouts t `prefix_of` timeouts (timer_calls v cs t).
Proof.
  intros Hn. split; [|split].
  - unfold stop, start. rewrite Hn. reflexivity.
  - unfold stop, start. rewrite Hn. simpl. unfold clearInterval.
    intros [Hne _]%list_elem_of_filter. by apply Hne.
  - clear Hn. revert t. induction cs as [|c cs IH]; intros t; simpl; [done|].
    etrans; [|apply IH]. destruct c as [j'|]; simpl.
    + unfold start. destruct (timer t); simpl; [done|by apply prefix_app_r].
    + done.
Qed.

Lemma one_shot_survives_stop_witness :
  timer idle = None ∧
  timeouts (stop (start None 700 idle)) = [(0%nat, 1200)] ∧
  intervals (stop (start None 700 idle)) = [].
Proof.
  split; [reflexivity|].
  destruct (one_shot_survives_stop None 700 [] idle eq_refl) as (H1 & _ & _).
  split; [exact H1|reflexivity].
Defined.

(** ** The date helpers *)

Section DateProperties.

Variable parseDate : string → JsDate.
Variable toLocaleString : JsDate → option string.

(** X17: when [normalizeDate] gives [null].  It does so exactly for a
    falsy input (undefined, null, false, NaN, the number 0, the empty
    string), for a string the runtime cannot parse, and for a value that
    is neither a date, a string, an object with numeric seconds nor a
    number.  So the epoch given as the number 0 is missing, while the
    epoch given as a timestamp object is a date. *)
Theorem normalizeDate_null_iff (v : JsVal) :
  (normalizeDate parseDate v = None ↔
   v = VUndefined ∨ v = VNull ∨ v = VFalse ∨ v = VNumber NaN ∨
   v = VNumber (Num 0) ∨ v = VString "" ∨ v = VOther ∨
   ∃ s, v = VString s ∧ parseDate s = InvalidDate) ∧
  normalizeDate parseDate (VSeconds (Num 0)) = Some (DateAt 0).
Proof.
  split; [|reflexivity]. unfold normalizeDate. split.
  - destruct v as [| | |[|z]|s|d|n|]; simpl; auto 10; try discriminate.
    + destruct (Z.eqb_spec z 0) as [->|Hz]; [auto 10|discriminate].
    + destruct (String.eqb_spec s "") as [->|Hs]; [auto 10|].
      destruct (parseDate s) eqn:Hp; [|discriminate]. eauto 10.
  - intros [->|[->|[->|[->|[->|[->|[->|(s & -> & Hp)]]]]]]]; try reflexivity.
    simpl. destruct (String.eqb s ""); [done|]. by rewrite Hp.
Qed.

(** X18: normalising twice is normalising once.  A date [normalizeDate]
    returns is returned unchanged when it is normalised again, and
    [formatRelativeTime] and [formatDate] give the same text for it as for
    the input it came from. *)
Theorem normalizeDate_idempotent (v : JsVal) (d : JsDate) (now : Z)
    (fallback : string) :
  normalizeDate parseDate v = Some d →
  normalizeDate parseDate (VDate d) = Some d ∧
  formatRelativeTime parseDate now (VDate d) = formatRelativeTime parseDate now v ∧
  formatDate parseDate toLocaleString (VDate d) fallback
  = formatDate parseDate toLocaleString v fallback.
Proof.
  intros Hv. unfold formatRelativeTime, formatDate. rewrite Hv.
  split; [reflexivity|]. split; reflexivity.
Qed.

(** X19: where an invalid date can come from.  [normalizeDate] returns an
    invalid date exactly for an invalid [Date] object, for an object whose
    seconds are [NaN] or lie more than 8.64e15 ms from the epoch, and for
    a number beyond that range; a string never yields one.  For such an
    input [formatRelativeTime] prints "NaNd ago". *)
Theorem normalizeDate_invalid_iff (v : JsVal) (now : Z) :
  (normalizeDate parseDate v = Some InvalidDate ↔
   v = VDate InvalidDate
   ∨ v = VSeconds NaN
   ∨ (∃ z, v = VSeconds (Num z) ∧ 8640000000000000 < Z.abs (z * 1000))
   ∨ (∃ z, v = VNumber (Num z) ∧ 8640000000000000 < Z.abs z)) ∧
  (normalizeDate parseDate v = Some InvalidDate →
   formatRelativeTime parseDate now v = "NaNd ago"%string).
Proof.
  split.
  - unfold normalizeDate, newDate, js_mul. split.
    + destruct v as [| | |[|z]|s|d|[|z]|]; simpl; try discriminate; auto.
      * destruct (Z.eqb_spec z 0); [discriminate|].
        destruct (Z.leb_spec (Z.abs z) 8640000000000000); [discriminate|].
        intros _. right. right. right. eauto.
      * destruct (String.eqb s ""); [discriminate|].
        destruct (parseDate s); discriminate.
      * intros [= ->]. by left.
      * destruct (Z.leb_spec (Z.abs (z * 1000)) 8640000000000000);
          [discriminate|].
        intros _. right. right. left. eauto.
    + intros [->|[->|[(z & -> & Hz)|(z & -> & Hz)]]]; simpl; try reflexivity.
      * destruct (Z.leb_spec (Z.abs (z * 1000)) 8640000000000000);
          [lia|done].
      * destruct (Z.eqb_spec z 0) as [->|_]; [simpl in Hz; lia|].
        destruct (Z.leb_spec (Z.abs z) 8640000000000000); [lia|done].
  - intros Hv. unfold formatRelativeTime. rewrite Hv. reflexivity.
Qed.

(** X20: the buckets of [formatRelativeTime].  For a valid date at
    distance [a] ms from now, the text is "Just now" below one minute,
    the whole minutes (1 to 59) below one hour, the whole hours (1 to 23)
    below one day, and the whole days (at least 1) from then on; the
    nested roundings of the code are the single quotients by 60000,
    3600000 and 86400000. *)
Theorem formatRelativeTime_buckets (v : JsVal) (now t : Z) :
  normalizeDate parseDate v = Some (DateAt t) →
  let a := Z.abs (now - t) in
  (a < 60000 → formatRelativeTime parseDate now v = "Just now"%string) ∧
  (60000 <= a < 3600000 →
   formatRelativeTime parseDate now v = pretty (a `div` 60000) +:+ "m ago" ∧
   1 <= a `div` 60000 <= 59) ∧
  (3600000 <= a < 86400000 →
   formatRelativeTime parseDate now v = pretty (a `div` 3600000) +:+ "h ago" ∧
   1 <= a `div` 3600000 <= 23) ∧
  (86400000 <= a →
   formatRelativeTime parseDate now v = pretty (a `div` 86400000) +:+ "d ago" ∧
   1 <= a `div` 86400000).
Proof.
  intros Hv a. unfold formatRelativeTime. rewrite Hv. simpl. fold a.
  assert (0 <= a) as Ha by (unfold a; lia).
  assert ((a `div` 1000) `div` 60 = a `div` 60000) as Hm
    by (rewrite Z.div_div by lia; reflexivity).
  assert (((a `div` 1000) `div` 60) `div` 60 = a `div` 3600000) as Hh
    by (rewrite !Z.div_div by lia; reflexivity).
  assert ((((a `div` 1000) `div` 60) `div` 60) `div` 24 = a `div` 86400000) as Hd
    by (rewrite !Z.div_div by lia; reflexivity).
  rewrite Hd, Hh, Hm.
  pose proof (Z.div_mod a 1000 ltac:(lia)) as E1.
  pose proof (Z.mod_pos_bound a 1000 ltac:(lia)) as B1.
  pose proof (Z.div_mod a 60000 ltac:(lia)) as E2.
  pose proof (Z.mod_pos_bound a 60000 ltac:(lia)) as B2.
  pose proof (Z.div_mod a 3600000 ltac:(lia)) as E3.
  pose proof (Z.mod_pos_bound a 3600000 ltac:(lia)) as B3.
  pose proof (Z.div_mod a 86400000 ltac:(lia)) as E4.
  pose proof (Z.mod_pos_bound a 86400000 ltac:(lia)) as B4.
  repeat split.
  - intros Hlt. destruct (Z.ltb_spec (a `div` 1000) 60); [done|lia].
  - destruct (Z.ltb_spec (a `div` 1000) 60); [lia|].
    destruct (Z.ltb_spec (a `div` 60000) 60); [done|lia].
  - lia.
  - lia.
  - destruct (Z.ltb_spec (a `div` 1000) 60); [lia|].
    destruct (Z.ltb_spec (a `div` 60000) 60); [lia|].
    destruct (Z.ltb_spec (a `div` 3600000) 24); [done|lia].
  - lia.
  - lia.
  - destruct (Z.ltb_spec (a `div` 1000) 60); [lia|].
    destruct (Z.ltb_spec (a `div` 60000) 60); [lia|].
    destruct (Z.ltb_spec (a `div` 3600000) 24); [lia|done].
  - lia.
Qed.

(** X21: the future reads like the past.  [formatRelativeTime] takes the
    absolute distance, so a date [d] ms after now gets the same text,
    ending in "ago", as a date [d] ms before now. *)
Theorem formatRelativeTime_symmetric (now d : Z) :
  formatRelativeTime parseDate now (VDate (DateAt (now + d)))
  = formatRelativeTime parseDate now (VDate (DateAt (now - d))).
Proof.
  unfold formatRelativeTime. simpl.
  replace (Z.abs (now - (now + d))) with (Z.abs d) by lia.
  replace (Z.abs (now - (now - d))) with (Z.abs d) by lia.
  reflexivity.
Qed.

End DateProperties.

Lemma normalizeDate_idempotent_witness :
  normalizeDate parseOne (VString "1970-01-01T00:01:00Z") = Some (DateAt 60000) ∧
  normalizeDate parseOne (VDate (DateAt 60000)) = Some (DateAt 60000) ∧
  formatRelativeTime parseOne 200000 (VDate (DateAt 60000))
  = formatRelativeTime parseOne 200000 (VString "1970-01-01T00:01:00Z") ∧
  formatDate parseOne localeNone (VDate (DateAt 60000)) "Date unavailable"
  = formatDate parseOne localeNone (VString "1970-01-01T00:01:00Z")
      "Date unavailable".
Proof.
  split; [reflexivity|].
  apply (normalizeDate_idempotent parseOne localeNone
           (VString "1970-01-01T00:01:00Z") (DateAt 60000) 200000
           "Date unavailable").
  reflexivity.
Defined.

Lemma formatRelativeTime_buckets_witness :
  normalizeDate parseOne (VSeconds (Num 60)) = Some (DateAt 60000) ∧
  60000 <= Z.abs (200000 - 60000) < 3600000 ∧
  formatRelativeTime parseOne 200000 (VSeconds (Num 60)) = "2m ago"%string.
Proof.
  split; [reflexivity|]. split; [lia|].
  destruct (formatRelativeTime_buckets parseOne (VSeconds (Num 60)) 200000 60000
              eq_refl) as (_ & H & _).
  destruct H as [H _]; [lia|]. rewrite H. reflexivity.
Defined.

(** ** Partial writes and the errors of a cycle *)

(** X22: a transition survives the failure of its timeline append.  When
    the re-fetch and the field update of an overdue complaint go through
    and the timeline append rejects, the turn rejects with that error after
    exactly these three calls; the complaint has its new status, level and
    deadlines, and neither a timeline event nor an audit entry for it. *)
Theorem partial_write_keeps_transition E now id acc s c d ns nl msg :
  docs s !! id = Some c →
  getDeadline c = Some d →
  d < now →
  transition (status c) = Some (ns, nl, msg) →
  fails E (trace s) (OpGet id) = false →
  fails E (trace s ++ [OpGet id]) (OpUpdate id) = false →
  fails E (trace s ++ [OpGet id; OpUpdate id]) (OpTimeline id) = true →
  process_one E now id acc s
  = (Throw (StoreError (OpTimeline id)),
     {| running := running s;
        docs := <[id := set_fields nl ns now
                          (now + extensionMs (DEMO_SLA_SECONDS E)) c]> (docs s);
        trace := trace s ++ [OpGet id; OpUpdate id; OpTimeline id] |}).
Proof.
  intros Hc Hd Hlt Ht Hf1 Hf2 Hf3.
  assert (status c ≠ "resolved"%string ∧ status c ≠ "escalated"%string)
    as [Hr He].
  { apply transition_Some in Ht. rewrite !elem_of_cons in Ht.
    destruct Ht as [([->|[->|[->|[]%elem_of_nil]]] & _)|(-> & _)]; done. }
  apply String_eqb_false in Hr, He.
  unfold process_one, bind, getComplaint, bind, call. rewrite Hf1. simpl.
  rewrite Hc, Hr, He. simpl. rewrite Hd.
  destruct (Z.leb_spec now d) as [?|_]; [lia|]. rewrite Ht.
  unfold updateComplaintFields, appendTimelineEvent, bind, call, modify_docs.
  simpl. rewrite Hf2. simpl. rewrite <- app_assoc. simpl. rewrite Hf3.
  f_equal. unfold log_op, set_docs. simpl. f_equal.
  - apply map_eq. intros j. destruct (decide (id = j)) as [<-|Hne].
    + by rewrite lookup_alter_eq, lookup_insert_eq, Hc.
    + by rewrite lookup_alter_ne, lookup_insert_ne.
  - rewrite <- !app_assoc. reflexivity.
Qed.

Lemma partial_write_keeps_transition_witness :
  docs sysA !! "c1"%string = Some beforeA ∧
  (process_one timelineFails 11000 "c1" ([], []) sysA).1
  = Throw (StoreError (OpTimeline "c1")) ∧
  (λ c, (status c, escalationLevel c, timeline c, auditLog c))
    <$> docs (process_one timelineFails 11000 "c1" ([], []) sysA).2 !! "c1"%string
  = Some ("sla_warning"%string, Some 1, [], []).
Proof.
  split; [reflexivity|].
  rewrite (partial_write_keeps_transition timelineFails 11000 "c1" ([], [])
             sysA beforeA 10000 "sla_warning" 1
             "SLA breached – warning issued");
    try reflexivity.
  split; reflexivity.
Defined.

Section CycleErrors.

Variable E : Env.

(** A turn of the loop rejects with the error of a store call that failed,
    or because the document it fetched has no deadline at all, or with the
    error of [Timestamp.fromDate] on the missed or on the new deadline. *)
Lemma process_one_throw now id acc s e s' :
  process_one E now id acc s = (Throw e, s') →
  (∃ op h, e = StoreError op ∧ fails E h op = true)
  ∨ (∃ c, docs s !! id = Some c ∧ getDeadline c = None)
  ∨ (e = TimestampError ∧
     ∃ c d, docs s !! id = Some c ∧ getDeadline c = Some d ∧
            (¬ timestamp_ms d
             ∨ ¬ timestamp_ms (now + extensionMs (DEMO_SLA_SECONDS E)))).
Proof.
  unfold process_one, getComplaint, updateComplaintFields, appendTimelineEvent,
    appendAudit, bind, call, modify_docs, ret, throw.
  destruct (fails E (trace s) (OpGet id)) eqn:F1; cbn -[newDate Timestamp_fromDate].
  { intros [= <- <-]. left. eauto. }
  destruct (docs s !! id) as [c|] eqn:Hc; [|done].
  destruct (_ || _)%bool; [done|].
  destruct (getDeadline c) as [d|] eqn:Hd; [|intros _; right; left; eauto].
  destruct (now <=? d); [done|].
  destruct (transition (status c)) as [[[ns nl] msg]|]; [|done]. cbn -[newDate Timestamp_fromDate].
  destruct (fails E _ (OpUpdate id)) eqn:F2; cbn -[newDate Timestamp_fromDate].
  { intros [= <- <-]. left. eauto. }
  destruct (fails E _ (OpTimeline id)) eqn:F3; cbn -[newDate Timestamp_fromDate].
  { intros [= <- <-]. left. eauto. }
  destruct (Timestamp_fromDate (newDate (Num d))) as [pt|] eqn:Hpt.
  2: { cbn -[newDate Timestamp_fromDate]. intros [= <- <-]. right. right. split; [done|]. exists c, d.
       split; [done|]. split; [done|]. left. intros Hr.
       apply Timestamp_fromDate_in_range in Hr. congruence. }
  destruct (Timestamp_fromDate
              (newDate (Num (now + extensionMs (DEMO_SLA_SECONDS E)))))
    as [nt|] eqn:Hnt.
  2: { cbn -[newDate Timestamp_fromDate]. intros [= <- <-]. right. right. split; [done|]. exists c, d.
       split; [done|]. split; [done|]. right. intros Hr.
       apply Timestamp_fromDate_in_range in Hr. congruence. }
  cbn -[newDate Timestamp_fromDate].
  destruct (fails E _ (OpAudit id)) eqn:F4; cbn -[newDate Timestamp_fromDate].
  { intros [= <- <-]. left. eauto. }
  rewrite !lookup_alter_eq, Hc. simpl. done.
Qed.

Lemma scan_loop_throw now ids acc s e s' :
  NoDup ids →
  (∀ id c, id ∈ ids → docs s !! id = Some c → is_Some (getDeadline c)) →
  scan_loop E now ids acc s = (Throw e, s') →
  (∃ op h, e = StoreError op ∧ fails E h op = true)
  ∨ (e = TimestampError ∧
     ((∃ k c d, docs s !! k = Some c ∧ getDeadline c = Some d ∧
                ¬ timestamp_ms d)
      ∨ ¬ timestamp_ms (now + extensionMs (DEMO_SLA_SECONDS E)))).
Proof.
  intros Hnd. revert acc s.
  induction Hnd as [|id ids Hnotin Hnd IH]; intros acc s Hdl; simpl; [done|].
  unfold bind.
  destruct (process_one E now id acc s) as [[acc1|e1] s1] eqn:Hp.
  - assert (∀ j, j ∈ ids → docs s1 !! j = docs s !! j) as Hsame.
    { intros j Hj.
      apply process_one_spec in Hp
        as [_ [[-> _]|(c0 & c' & ns & _ & _ & _ & -> & _)]]; [done|].
      rewrite lookup_insert_ne; [done|]. by intros ->. }
    intros Hl. apply IH in Hl.
    + destruct Hl as [?|(-> & [(k & c & d & Hk & Hd & Hr)|Hr])]; [by left| |].
      * destruct (decide (k ∈ ids)) as [Hin|Hnin].
        -- right. split; [done|]. left. exists k, c, d.
           rewrite <- (Hsame k Hin). done.
        -- apply process_one_spec in Hp
             as [_ [[Heq _]|(c0 & c' & ns & Hc0 & Hcm & _ & Heq & _)]].
           ++ right. split; [done|]. left. exists k, c, d. by rewrite <- Heq.
           ++ destruct (decide (id = k)) as [->|Hne].
              ** rewrite Heq, lookup_insert_eq in Hk. injection Hk as <-.
                 apply committed_deadline in Hcm as (Hsd & _ & _).
                 unfold getDeadline in Hd. rewrite Hsd in Hd.
                 injection Hd as <-. right. split; [done|]. by right.
              ** rewrite Heq, lookup_insert_ne in Hk by done.
                 right. split; [done|]. left. by exists k, c, d.
      * right. split; [done|]. by right.
    + intros j c Hj Hc. apply (Hdl j c); [by apply list_elem_of_further|].
      by rewrite <- (Hsame j Hj).
  - intros [= <- <-].
    apply process_one_throw in Hp
      as [?|[(c & Hc & Hd)|(-> & c & d & Hc & Hd & Hr)]]; [by left| |].
    + destruct (Hdl id c (list_elem_of_here _ _) Hc) as [? ?]. congruence.
    + right. split; [done|]. destruct Hr as [Hr|Hr]; [left|by right].
      by exists id, c, d.
Qed.

Lemma overdue_ids_have_deadline now (d : gmap string Complaint) id c :
  id ∈ overdue_ids now d → d !! id = Some c → is_Some (getDeadline c).
Proof.
  unfold overdue_ids.
  intros ([k c0] & -> & [Ho Hin]%list_elem_of_filter)%list_elem_of_fmap.
  simpl in *. unfold query_page in Hin. apply subseteq_take in Hin.
  rewrite merge_sort_Permutation in Hin.
  apply list_elem_of_filter in Hin as [_ Hin].
  apply elem_of_map_to_list in Hin. intros Hc.
  assert (c0 = c) as -> by congruence.
  unfold isOverdue in Ho. fold (getDeadline c) in Ho.
  destruct (getDeadline c); [eauto|done].
Qed.

(** X23: the errors of a cycle.  A cycle that runs on the store alone
    rejects only with the error of a store call that failed or with the
    error [Timestamp.fromDate] throws on a deadline it cannot represent; it
    never fails on a missing deadline or on a missing document, because
    every complaint it takes up was overdue in the page of its own query.
    So a cycle resolves when no call fails and [now] (converted at the
    start of the cycle), the deadlines in the store and [now] plus the
    extension are times a timestamp can hold. *)
Theorem tick_rejects_only_with_store_errors now s :
  (∀ e s', tick E now s = (Throw e, s') →
           (∃ op h, e = StoreError op ∧ fails E h op = true)
           ∨ e = TimestampError) ∧
  ((∀ h op, fails E h op = false) →
   timestamp_ms now →
   (∀ k c d, docs s !! k = Some c → getDeadline c = Some d → timestamp_ms d) →
   timestamp_ms (now + extensionMs (DEMO_SLA_SECONDS E)) →
   ∃ res escs, (tick E now s).1 = Ok (res, escs)).
Proof.
  assert (∀ e s', tick E now s = (Throw e, s') →
            (∃ op h, e = StoreError op ∧ fails E h op = true)
            ∨ (e = TimestampError ∧
               ((∃ k c d, docs s !! k = Some c ∧ getDeadline c = Some d ∧
                          ¬ timestamp_ms d)
                ∨ ¬ timestamp_ms (now + extensionMs (DEMO_SLA_SECONDS E)))))
    as Hthrow.
  { intros e s'. unfold tick, try_finally. destruct (running s); [done|].
    destruct (tick_body E now (set_running true s)) as [r0 s0] eqn:Hb.
    simpl. intros [= -> <-].
    unfold tick_body, bind at 1 in Hb.
    destruct (runQuery E (set_running true s)) as [[snap|e0] s1] eqn:Hq.
    - apply runQuery_inv in Hq as [-> [[= ->]|[? [=]]]].
      unfold bind in Hb.
      fold (overdue_ids now (docs (set_running true s))) in Hb.
      destruct (scan_loop _ _ _ _ _) as [[acc|e1] s2] eqn:Hl; [done|].
      injection Hb as <- <-.
      eapply scan_loop_throw in Hl; [exact Hl|apply overdue_ids_NoDup|].
      intros id c. simpl. apply overdue_ids_have_deadline.
    - unfold runQuery, bind, call in Hq.
      destruct (fails E _ OpQuery) eqn:F; [|done].
      injection Hq as <- <-. injection Hb as <- <-. left. eauto. }
  split.
  - intros e s' [?|[-> _]]%Hthrow; [by left|by right].
  - intros Hq _ Hstored Hnew.
    destruct (tick E now s) as [[[res escs]|e] s'] eqn:Ht; [simpl; eauto|].
    destruct (Hthrow e s' eq_refl)
      as [(op & h & _ & Hf)|(_ & [(k & c & d & Hk & Hd & Hr)|Hr])].
    + rewrite Hq in Hf. discriminate.
    + destruct Hr. by eapply Hstored.
    + by destruct Hr.
Qed.

End CycleErrors.

Lemma tick_rejects_only_with_store_errors_witness :
  (∀ h op, fails envA h op = false) ∧
  timestamp_ms 11000 ∧
  timestamp_ms (11000 + extensionMs (DEMO_SLA_SECONDS envA)) ∧
  ∃ res escs, (tick envA 11000 sysA).1 = Ok (res, escs).
Proof.
  assert (timestamp_ms 11000) as H1 by (vm_compute; split; discriminate).
  assert (timestamp_ms (11000 + extensionMs (DEMO_SLA_SECONDS envA))) as H2
    by (vm_compute; split; discriminate).
  split; [reflexivity|]. split; [exact H1|]. split; [exact H2|].
  apply (tick_rejects_only_with_store_errors envA 11000 sysA);
    [reflexivity|exact H1| |exact H2].
  intros k c d Hk Hd.
  destruct (decide (k = "c1"%string)) as [->|Hne].
  - vm_compute in Hk. injection Hk as <-. vm_compute in Hd.
    injection Hd as <-. vm_compute. split; discriminate.
  - unfold sysA, store in Hk. simpl in Hk.
    rewrite lookup_insert_ne in Hk by done. done.
Defined.

(** ** The page bounds the work of a cycle *)

(** X24: a cycle works on its page only.  A document that is not on the
    page of the bulk query, because its status is not an active one or
    because 250 active documents were updated more recently, is left as it
    is by the cycle, even when it is overdue. *)
Theorem tick_works_on_page_only E now s r s' k :
  tick E now s = (r, s') →
  k ∉ (query_page (docs s)).*1 →
  docs s' !! k = docs s !! k.
Proof.
  unfold tick, try_finally. destruct (running s); [by intros [= <- <-]|].
  destruct (tick_body E now (set_running true s)) as [r0 s0] eqn:Hb.
  simpl. intros [= <- <-] Hout. simpl.
  apply tick_body_inv in Hb as [[-> _]|(ra & Hl & _)]; [done|].
  eapply (scan_loop_spec _ _ _ _ _ _ _ k) in Hl; [|apply overdue_ids_NoDup].
  destruct Hl as [Hl|[Hin _]]; [done|]. destruct Hout.
  unfold overdue_ids in Hin. simpl in Hin.
  eapply elem_of_sublist; [exact Hin|]. apply fmap_sublist, sublist_filter.
Qed.

Lemma tick_works_on_page_only_witness :
  let old := complaint "resolved" (Some 1) 0 0 (Some 10000) in
  let s := store [("c1"%string, beforeA); ("c9"%string, old)] in
  isOverdue 11000 old = true ∧
  ("c9"%string ∉ (query_page (docs s)).*1) ∧
  docs (tick envA 11000 s).2 !! "c9"%string = docs s !! "c9"%string.
Proof.
  intros old s. split; [reflexivity|].
  assert ("c9"%string ∉ (query_page (docs s)).*1) as Hout.
  { vm_compute. intros [Heq|Hin]%elem_of_cons; [discriminate|].
    by apply elem_of_nil in Hin. }
  split; [exact Hout|].
  apply (tick_works_on_page_only envA 11000 s (tick envA 11000 s).1
           (tick envA 11000 s).2 "c9").
  - apply surjective_pairing.
  - exact Hout.
Defined.

(** X25: what [scanned] counts.  A cycle that starts with the flag down
    and resolves reports as [scanned] the number of documents in an active
    status, capped at 250, whether or not any of them is overdue. *)
Theorem scanned_counts_active_documents E now s res escs s' :
  running s = false →
  tick E now s = (Ok (res, escs), s') →
  scanned res
  = Nat.min 250 (length (filter (λ kc : string * Complaint,
                                   status (kc.2) ∈ ACTIVE_STATUSES)
                                (map_to_list (docs s)))).
Proof.
  intros Hrun. unfold tick, try_finally. rewrite Hrun.
  destruct (tick_body E now (set_running true s)) as [r0 s0] eqn:Hb.
  simpl. intros [= -> <-].
  apply tick_body_inv in Hb as [[_ [? [=]]]|(ra & _ & Hra)].
  destruct ra as [acc|e]; [|done]. injection Hra as -> _. cbn [scanned].
  unfold query_page. rewrite length_take, merge_sort_Permutation.
  rewrite (list_filter_iff _ (λ kc : string * Complaint,
                                status (kc.2) ∈ ACTIVE_STATUSES));
    [reflexivity|].
  intros [k c]. cbn [snd]. unfold status_active. apply bool_decide_eq_true.
Qed.

Lemma scanned_counts_active_documents_witness :
  let s := store [("c1"%string, notYetDue);
                  ("c2"%string, complaint "resolved" None 0 0 (Some 10000))] in
  running s = false ∧
  scanned (Build_TickResult 1 0 [])
  = Nat.min 250 (length (filter (λ kc : string * Complaint,
                                   status (kc.2) ∈ ACTIVE_STATUSES)
                                (map_to_list (docs s)))).
Proof.
  intros s. split; [reflexivity|].
  apply (scanned_counts_active_documents envA 11000 s (Build_TickResult 1 0 [])
           [] (tick envA 11000 s).2).
  - reflexivity.
  - vm_compute; reflexivity.
Defined.

End Extras.
